(** * spelling-checker: the editor core of [app.js]

    A shallow embedding of [src/spelling-checker/app.js]: the stats
    summarizer, the HTML escaper, the highlight renderer, the suggestion
    panel renderer, the check cycle and the replacement applier, together
    with the properties the specification states about them.

    JavaScript strings are sequences of UTF-16 code units; a code unit is
    modelled as an [N] and a string as a list of them.  Offsets and lengths
    coming from the checking service are JavaScript numbers holding
    integers and are modelled in [Z], so that the different treatment of
    negative positions by [slice] and [substring] is written out. *)

From Stdlib Require Import ZArith NArith List Lia Bool String Ascii.
From Stdlib Require Import Permutation Sorted DecimalString.
Import ListNotations.

Set Implicit Arguments.

(** ** JavaScript string primitives *)

Module JS.

Definition char := N.
Definition jsstring := list char.

(** A source literal, written as a Rocq string of ASCII characters. *)
Definition lit (s : string) : jsstring :=
  map N_of_ascii (list_ascii_of_string s).

Definition dq : char := 34%N.        (* the double quote *)
Definition sq : char := 39%N.        (* the single quote *)
Definition bsl : char := 92%N.       (* the backslash *)
Definition nl : char := 10%N.        (* the line feed *)
Definition amp : char := 38%N.       (* & *)
Definition lt : char := 60%N.        (* < *)
Definition gt : char := 62%N.        (* > *)

Definition str_eqb (s t : jsstring) : bool :=
  if list_eq_dec N.eq_dec s t then true else false.

(** [s.length] *)
Definition len (s : jsstring) : Z := Z.of_nat (List.length s).

(** The characters at positions [from, to) for [0 <= from], as a helper of
    [slice] and [substring]. *)
Definition cut (s : jsstring) (from to : Z) : jsstring :=
  firstn (Z.to_nat (to - from)) (skipn (Z.to_nat from) s).

(** [String.prototype.slice]: a negative position counts from the end,
    a position past the end is the end, and an end before the start gives
    the empty string. *)
Definition rel_index (n i : Z) : Z :=
  if (i <? 0)%Z then Z.max (n + i) 0 else Z.min i n.

Definition slice (s : jsstring) (a b : Z) : jsstring :=
  let from := rel_index (len s) a in
  let to := rel_index (len s) b in
  cut s from (Z.max from to).

Definition slice_from (s : jsstring) (a : Z) : jsstring :=
  slice s a (len s).

(** [String.prototype.substring]: positions are clamped to [0, length] and
    swapped when the start is after the end. *)
Definition clamp (n i : Z) : Z := Z.min (Z.max i 0) n.

Definition substring (s : jsstring) (a b : Z) : jsstring :=
  let fs := clamp (len s) a in
  let fe := clamp (len s) b in
  cut s (Z.min fs fe) (Z.max fs fe).

Definition substring_from (s : jsstring) (a : Z) : jsstring :=
  substring s a (len s).

(** [s.replace(/c/g, r)] for a one-character pattern [c] and a replacement
    [r] without [$]: every occurrence of [c] becomes [r]. *)
Definition replace_all (c : char) (r : jsstring) (s : jsstring) : jsstring :=
  flat_map (fun x => if N.eqb x c then r else [x]) s.

(** White space and line terminators: the characters [trim] removes and
    the class [\s] of a regular expression matches (the same set). *)
Definition is_ws (c : char) : bool :=
  (((9 <=? c) && (c <=? 13)) || (c =? 32) || (c =? 160) || (c =? 5760)
   || ((8192 <=? c) && (c <=? 8202)) || (c =? 8232) || (c =? 8233)
   || (c =? 8239) || (c =? 8287) || (c =? 12288) || (c =? 65279))%N.

Fixpoint trimStart (s : jsstring) : jsstring :=
  match s with
  | [] => []
  | c :: s' => if is_ws c then trimStart s' else s
  end.

Definition trimEnd (s : jsstring) : jsstring := rev (trimStart (rev s)).

Definition trim (s : jsstring) : jsstring := trimEnd (trimStart s).

(** [s.split(/\s+/)]: the pieces between the maximal runs of white space.
    [in_sep] says that the previous character belonged to a separator and
    [cur] holds the current piece, reversed.  A separator at the very start
    or end leaves an empty piece there, and the empty string gives one
    empty piece. *)
Fixpoint split_go (in_sep : bool) (cur : jsstring) (s : jsstring)
  : list jsstring :=
  match s with
  | [] => [rev cur]
  | c :: s' =>
      if is_ws c then
        if in_sep then split_go true cur s'
        else rev cur :: split_go true [] s'
      else split_go false (c :: cur) s'
  end.

Definition split_ws (s : jsstring) : list jsstring := split_go false [] s.

(** [s.endsWith('\n')] *)
Definition endsWith_nl (s : jsstring) : bool :=
  match rev s with
  | c :: _ => N.eqb c nl
  | [] => false
  end.

(** The decimal text of a non-negative integer, as a template literal
    prints a length or an array index. *)
Definition dec (n : nat) : jsstring :=
  lit (NilZero.string_of_uint (Nat.to_uint n)).

End JS.

Import JS.

(** ** The escaper *)

(** [escapeHtml]: five global replacements, [&] first. *)
Definition escapeHtml (text : jsstring) : jsstring :=
  replace_all sq (lit "&#039;")
    (replace_all dq (lit "&quot;")
      (replace_all gt (lit "&gt;")
        (replace_all lt (lit "&lt;")
          (replace_all amp (lit "&amp;") text)))).

(** ** The stats summarizer *)

(** The number [words] of [updateStats]. *)
Definition wordCount (text : jsstring) : nat :=
  if str_eqb (trim text) [] then 0
  else List.length (split_ws (trim text)).

Definition plural (n : nat) : jsstring :=
  if Nat.eqb n 1 then [] else lit "s".

Definition charCountLabel (text : jsstring) : jsstring :=
  dec (List.length text) ++ lit " character" ++ plural (List.length text).

Definition wordCountLabel (text : jsstring) : jsstring :=
  dec (wordCount text) ++ lit " word" ++ plural (wordCount text).

(** ** The data model *)

(** [match.context] *)
Module Context.
Record t := mk {
  text : jsstring;
  offset : Z;
  length : Z
}.
End Context.

(** One entry of [data.matches]; [issueType] is [match.rule.issueType] and
    a replacement is the [value] of an entry of [match.replacements]. *)
Module Match.
Record t := mk {
  offset : Z;
  length : Z;
  issueType : jsstring;
  message : jsstring;
  context : Context.t;
  replacements : list jsstring
}.
End Match.

(** The page: the variable [currentMatches] and the properties of the DOM
    elements that the script reads or writes. *)
Record State := mkState {
  editor_value : jsstring;
  highlights_innerHTML : jsstring;
  charCount_textContent : jsstring;
  wordCount_textContent : jsstring;
  suggestionsList_innerHTML : jsstring;
  badge_textContent : jsstring;
  badge_hidden : bool;
  badge_warning : bool;
  loader_hidden : bool;
  checkBtn_disabled : bool;
  checkBtn_opacity : jsstring;
  currentMatches : list Match.t
}.

(** What a handler does to the world outside the page state. *)
Inductive Effect :=
| Fetch (url text language : jsstring)
| ConsoleError
| Alert (msg : jsstring).

(** How the request of [checkText] settles: [fetch] rejects, the response
    is not [ok], its body is not JSON, or it carries the matches.  A JSON
    body of another shape is not modelled. *)
Inductive Outcome :=
| FetchRejected
| StatusNotOk
| JsonRejected
| Matches (ms : list Match.t).

Definition LANGUAGETOOL_API : jsstring :=
  lit "https://api.languagetoolplus.com/v2/check".
Definition LANGUAGE : jsstring := lit "en-US".

(** *** Field updates *)

Definition set_editor_value (v : jsstring) (st : State) : State :=
  mkState v (highlights_innerHTML st) (charCount_textContent st)
    (wordCount_textContent st) (suggestionsList_innerHTML st)
    (badge_textContent st) (badge_hidden st) (badge_warning st)
    (loader_hidden st) (checkBtn_disabled st) (checkBtn_opacity st)
    (currentMatches st).

Definition set_highlights (v : jsstring) (st : State) : State :=
  mkState (editor_value st) v (charCount_textContent st)
    (wordCount_textContent st) (suggestionsList_innerHTML st)
    (badge_textContent st) (badge_hidden st) (badge_warning st)
    (loader_hidden st) (checkBtn_disabled st) (checkBtn_opacity st)
    (currentMatches st).

Definition set_stats (c w : jsstring) (st : State) : State :=
  mkState (editor_value st) (highlights_innerHTML st) c w
    (suggestionsList_innerHTML st)
    (badge_textContent st) (badge_hidden st) (badge_warning st)
    (loader_hidden st) (checkBtn_disabled st) (checkBtn_opacity st)
    (currentMatches st).

Definition set_suggestions (v : jsstring) (st : State) : State :=
  mkState (editor_value st) (highlights_innerHTML st)
    (charCount_textContent st) (wordCount_textContent st) v
    (badge_textContent st) (badge_hidden st) (badge_warning st)
    (loader_hidden st) (checkBtn_disabled st) (checkBtn_opacity st)
    (currentMatches st).

Definition set_badge (t : jsstring) (hidden warning : bool) (st : State)
  : State :=
  mkState (editor_value st) (highlights_innerHTML st)
    (charCount_textContent st) (wordCount_textContent st)
    (suggestionsList_innerHTML st) t hidden warning
    (loader_hidden st) (checkBtn_disabled st) (checkBtn_opacity st)
    (currentMatches st).

Definition set_controls (hidden disabled : bool) (opacity : jsstring)
  (st : State) : State :=
  mkState (editor_value st) (highlights_innerHTML st)
    (charCount_textContent st) (wordCount_textContent st)
    (suggestionsList_innerHTML st)
    (badge_textContent st) (badge_hidden st) (badge_warning st)
    hidden disabled opacity (currentMatches st).

Definition set_currentMatches (ms : list Match.t) (st : State) : State :=
  mkState (editor_value st) (highlights_innerHTML st)
    (charCount_textContent st) (wordCount_textContent st)
    (suggestionsList_innerHTML st)
    (badge_textContent st) (badge_hidden st) (badge_warning st)
    (loader_hidden st) (checkBtn_disabled st) (checkBtn_opacity st) ms.

(** ** Array primitives *)

(** [arr.forEach((x, index) => ...)] threading the variables the callback
    assigns; [i] is the index of the head of [l]. *)
Fixpoint forEach_from (A S : Type) (f : S -> A -> nat -> S) (i : nat)
  (l : list A) (acc : S) : S :=
  match l with
  | [] => acc
  | x :: l' => forEach_from f (Datatypes.S i) l' (f acc x i)
  end.

Definition forEach (A S : Type) (f : S -> A -> nat -> S) (l : list A)
  (acc : S) : S := forEach_from f 0 l acc.

(** [arr[i]]: [None] is [undefined]. *)
Definition array_get (A : Type) (l : list A) (i : Z) : option A :=
  if (i <? 0)%Z then None else nth_error l (Z.to_nat i).

(** [Array.prototype.sort] with a comparator that is consistent, as a
    difference of integers is: the sort is stable, so the result is the
    one an insertion sort gives that puts an element before the elements
    it does not compare greater than, taking the elements from the right. *)
Fixpoint insert_sorted (A : Type) (cmp : A -> A -> Z) (x : A) (l : list A)
  : list A :=
  match l with
  | [] => [x]
  | y :: l' =>
      if (cmp x y <=? 0)%Z then x :: l else y :: insert_sorted cmp x l'
  end.

Definition sort (A : Type) (cmp : A -> A -> Z) (l : list A) : list A :=
  fold_right (insert_sorted cmp) [] l.

(** ** The script *)

Definition updateStats (st : State) : State :=
  let text := editor_value st in
  set_stats (charCountLabel text) (wordCountLabel text) st.

Definition clearHighlights (st : State) : State :=
  set_highlights (escapeHtml (editor_value st)) st.

(** The listener of the editor's [input] event; the browser has stored the
    edited text in [editor.value] before it runs. *)
Definition input_listener (st : State) : State :=
  clearHighlights (updateStats st).

Definition user_edit (typed : jsstring) (st : State) : State :=
  input_listener (set_editor_value typed st).

Definition setLoading (isLoading : bool) (st : State) : State :=
  if isLoading then set_controls false true (lit "0.7") st
  else set_controls true false (lit "1") st.

Definition is_misspelling (m : Match.t) : bool :=
  str_eqb (Match.issueType m) (lit "misspelling").

(** *** The highlight renderer *)

Definition quoted (s : jsstring) : jsstring := dq :: s ++ [dq].

Definition typeClass (m : Match.t) : jsstring :=
  if is_misspelling m then lit "misspelling" else lit "grammar".

Definition mark_open (cls : jsstring) (index : nat) : jsstring :=
  lit "<mark class=" ++ quoted cls ++ lit " data-index="
    ++ quoted (dec index) ++ lit ">".

Definition mark_close : jsstring := lit "</mark>".

(** The [mark] element the callback of [applyHighlights] appends. *)
Definition renderMark (text : jsstring) (m : Match.t) (index : nat)
  : jsstring :=
  let issueWord :=
    escapeHtml (slice text (Match.offset m)
                  (Match.offset m + Match.length m)) in
  mark_open (typeClass m) index ++ issueWord ++ mark_close.

Definition compare_offset (a b : Match.t) : Z :=
  (Match.offset a - Match.offset b)%Z.

Definition sortedMatches (ms : list Match.t) : list Match.t :=
  sort compare_offset ms.

(** The callback of [sortedMatches.forEach], on the pair of
    [highlightedText] and [lastIndex]. *)
Definition highlight_step (text : jsstring) (acc : jsstring * Z)
  (m : Match.t) (index : nat) : jsstring * Z :=
  let '(highlightedText, lastIndex) := acc in
  (highlightedText
     ++ escapeHtml (slice text lastIndex (Match.offset m))
     ++ renderMark text m index,
   (Match.offset m + Match.length m)%Z).

Definition highlightedText (text : jsstring) (ms : list Match.t)
  : jsstring :=
  let '(h, lastIndex) :=
    forEach (highlight_step text) (sortedMatches ms) ([], 0%Z) in
  let h := h ++ escapeHtml (slice_from text lastIndex) in
  if endsWith_nl text then h ++ lit "<br>" else h.

Definition applyHighlights (st : State) : State :=
  set_highlights (highlightedText (editor_value st) (currentMatches st)) st.

(** The listener of clicks on the overlay: the [id] of the card a [mark]
    with the given [data-index] scrolls to. *)
Definition click_target (index : nat) : jsstring := lit "card-" ++ dec index.

(** *** The suggestion panel renderer *)

Definition spaces (n : nat) : jsstring := repeat 32%N n.

Definition line (indent : nat) (s : jsstring) : jsstring :=
  nl :: spaces indent ++ s.

Definition empty_state_html : jsstring :=
  line 16 (lit "<div class=" ++ quoted (lit "empty-state") ++ lit ">")
  ++ line 20 (lit "<svg width=" ++ quoted (lit "48")
              ++ lit " height=" ++ quoted (lit "48")
              ++ lit " viewBox=" ++ quoted (lit "0 0 24 24")
              ++ lit " fill=" ++ quoted (lit "none")
              ++ lit " stroke=" ++ quoted (lit "currentColor")
              ++ lit " stroke-width=" ++ quoted (lit "2")
              ++ lit " stroke-linecap=" ++ quoted (lit "round")
              ++ lit " stroke-linejoin=" ++ quoted (lit "round")
              ++ lit ">")
  ++ line 24 (lit "<path d="
              ++ quoted (lit "M22 11.08V12a10 10 10 0 1 1-5.93-9.14")
              ++ lit "></path>")
  ++ line 24 (lit "<polyline points="
              ++ quoted (lit "22 4 12 14.01 9 11.01")
              ++ lit "></polyline>")
  ++ line 20 (lit "</svg>")
  ++ line 20 (lit "<p>No issues found! Your text looks great.</p>")
  ++ line 16 (lit "</div>")
  ++ line 12 [].

Definition card_id (index : nat) : jsstring := lit "card-" ++ dec index.

Definition renderButton (index : nat) (rep : jsstring) : jsstring :=
  lit "<button class=" ++ quoted (lit "replacement-btn")
    ++ lit " onclick="
    ++ quoted (lit "applyReplacement(" ++ dec index ++ lit ", "
               ++ [sq] ++ replace_all sq [bsl; sq] rep ++ [sq] ++ lit ")")
    ++ lit ">" ++ escapeHtml rep ++ lit "</button>".

(** The card the callback of [currentMatches.forEach] appends to [html]. *)
Definition renderCard (m : Match.t) (index : nat) : jsstring :=
  let isMisspelling := is_misspelling m in
  let cardClass := if isMisspelling then lit "error" else lit "warning" in
  let issueTypeDisplay :=
    if isMisspelling then lit "Spelling" else lit "Grammar" in
  let ctxText := escapeHtml (Context.text (Match.context m)) in
  let ctxStart := Context.offset (Match.context m) in
  let ctxLen := Context.length (Match.context m) in
  let beforeCtx := substring ctxText 0 ctxStart in
  let errCtx := substring ctxText ctxStart (ctxStart + ctxLen) in
  let afterCtx := substring_from ctxText (ctxStart + ctxLen) in
  let replacements :=
    List.concat (map (renderButton index) (firstn 5 (Match.replacements m))) in
  line 16 (lit "<div class="
           ++ quoted (lit "suggestion-card " ++ cardClass)
           ++ lit " id=" ++ quoted (card_id index) ++ lit ">")
  ++ line 20 (lit "<div class=" ++ quoted (lit "card-header") ++ lit ">")
  ++ line 24 (lit "<span class=" ++ quoted (lit "issue-type") ++ lit ">"
              ++ issueTypeDisplay ++ lit "</span>")
  ++ line 20 (lit "</div>")
  ++ line 20 (lit "<div class=" ++ quoted (lit "issue-message") ++ lit ">"
              ++ escapeHtml (Match.message m) ++ lit "</div>")
  ++ line 20 (lit "<div class=" ++ quoted (lit "context-str") ++ lit ">")
  ++ line 24 (beforeCtx
              ++ lit "<span class=" ++ quoted (lit "context-err") ++ lit ">"
              ++ errCtx ++ lit "</span>" ++ afterCtx)
  ++ line 20 (lit "</div>")
  ++ line 20 (match replacements with
              | [] => []
              | _ => lit "<div class=" ++ quoted (lit "replacements")
                     ++ lit ">" ++ replacements ++ lit "</div>"
              end)
  ++ line 16 (lit "</div>")
  ++ line 12 [].

Definition renderResults (st : State) : State :=
  let ms := currentMatches st in
  match ms with
  | [] =>
      set_suggestions empty_state_html
        (set_badge (badge_textContent st) true (badge_warning st) st)
  | _ =>
      let misspellings := List.length (filter is_misspelling ms) in
      let st1 :=
        set_badge (dec (List.length ms)) false (Nat.eqb misspellings 0) st in
      let html :=
        forEach (fun html m index => html ++ renderCard m index) ms [] in
      set_suggestions html st1
  end.

(** *** The check cycle *)

(** [checkText] up to its first [await]: nothing on a blank buffer, else
    the busy state and the request. *)
Definition checkText_request (st : State) : State * list Effect :=
  let text := editor_value st in
  if str_eqb (trim text) [] then (st, [])
  else (setLoading true st, [Fetch LANGUAGETOOL_API text LANGUAGE]).

(** [checkText] from the moment its request settles, on the page as it is
    then: the [try] body, or the [catch] block, and the [finally] block. *)
Definition checkText_settle (o : Outcome) (st : State)
  : State * list Effect :=
  match o with
  | Matches ms =>
      (setLoading false
         (applyHighlights (renderResults (set_currentMatches ms st))), [])
  | FetchRejected | StatusNotOk | JsonRejected =>
      (setLoading false st,
       [ConsoleError;
        Alert (lit "Failed to check text. Please try again later.")])
  end.

(** *** The replacement applier *)

(** [window.applyReplacement]; [None] is the [TypeError] of reading
    [offset] of [undefined], raised before anything is written. *)
Definition applyReplacement (matchIndex : Z) (replacementText : jsstring)
  (st : State) : option (State * list Effect) :=
  match array_get (currentMatches st) matchIndex with
  | None => None
  | Some m =>
      let text := editor_value st in
      let newText :=
        substring text 0 (Match.offset m) ++ replacementText
          ++ substring_from text (Match.offset m + Match.length m) in
      Some (checkText_request (updateStats (set_editor_value newText st)))
  end.

(** ** Notions of the specification *)

(** The number of maximal white-space-delimited tokens of a string: the
    characters that are not white space and follow white space or start
    the string.  [prev_ws] says that the previous character was white
    space (or that there is none). *)
Fixpoint count_tokens_from (prev_ws : bool) (s : jsstring) : nat :=
  match s with
  | [] => 0
  | c :: s' =>
      if is_ws c then count_tokens_from true s'
      else (if prev_ws then 1 else 0) + count_tokens_from false s'
  end.

Definition count_tokens (s : jsstring) : nat := count_tokens_from true s.

(** [B[a:b]] and [B[a:]] for positions [0 <= a]. *)
Definition range (B : jsstring) (a b : Z) : jsstring :=
  firstn (Z.to_nat b - Z.to_nat a) (skipn (Z.to_nat a) B).

Definition range_from (B : jsstring) (a : Z) : jsstring :=
  skipn (Z.to_nat a) B.

Definition splice (B : jsstring) (offset length : Z) (r : jsstring)
  : jsstring :=
  range B 0 offset ++ r ++ range_from B (offset + length).

(** Does [s] start with [p]? *)
Fixpoint starts_with (p s : jsstring) : bool :=
  match p, s with
  | [], _ => true
  | _ :: _, [] => false
  | a :: p', b :: s' => N.eqb a b && starts_with p' s'
  end.

(** Removing the wrapper tags of the highlight renderer from a text: an
    opening tag, from [<mark ] to the next [>], and the closing tag
    [</mark>] are dropped, every other character is kept.  [in_tag] says
    that the scan is inside a tag being dropped. *)
Fixpoint strip_go (in_tag : bool) (s : jsstring) : jsstring :=
  match s with
  | [] => []
  | c :: s' =>
      if in_tag then strip_go (negb (N.eqb c gt)) s'
      else if starts_with (lit "<mark ") s || starts_with mark_close s
           then strip_go true s'
           else c :: strip_go false s'
  end.

Definition strip_wrapper_tags (s : jsstring) : jsstring := strip_go false s.

(** An issue lies within the buffer. *)
Definition within_range (B : jsstring) (m : Match.t) : Prop :=
  (0 <= Match.offset m /\ 0 <= Match.length m
   /\ Match.offset m + Match.length m <= len B)%Z.

(** An issue comes no later than another one by offset. *)
Definition offset_le (a b : Match.t) : Prop :=
  (Match.offset a <= Match.offset b)%Z.

(** An issue ends where a later one starts, or before. *)
Definition ends_before (a b : Match.t) : Prop :=
  (Match.offset a + Match.length a <= Match.offset b)%Z.

Definition sorted_by_offset (ms : list Match.t) : Prop :=
  StronglySorted offset_le ms.

Definition non_overlapping (ms : list Match.t) : Prop :=
  ForallOrdPairs ends_before ms.

(** The pairs of an issue and the index its highlight carries, and the
    pairs of an issue and the index of its card. *)
Definition highlight_entries (ms : list Match.t) : list (Match.t * nat) :=
  rev (forEach (fun acc m index => (m, index) :: acc) (sortedMatches ms) []).

Definition card_entries (ms : list Match.t) : list (Match.t * nat) :=
  rev (forEach (fun acc m index => (m, index) :: acc) ms []).

(** ** Sample data *)

Definition plain_match (offset length : Z) (issueType : string) : Match.t :=
  Match.mk offset length (lit issueType) [] (Context.mk [] 0 0) [].

Definition page (text : jsstring) (ms : list Match.t) : State :=
  mkState text (escapeHtml text) [] [] [] [] true false true false
    (lit "1") ms.

(** The scenario of the specification. *)
Definition dog_match : Match.t :=
  Match.mk 2 3 (lit "grammar") (lit "Subject-verb agreement")
    (Context.mk (lit "I has a dog") 2 3) [lit "have"].

(** Two misspellings the service lists the later one first. *)
Definition wrld_match : Match.t :=
  Match.mk 5 4 (lit "misspelling") (lit "Possible spelling mistake")
    (Context.mk (lit "helo wrld") 5 4) [lit "world"].

Definition helo_match : Match.t :=
  Match.mk 0 4 (lit "misspelling") (lit "Possible spelling mistake")
    (Context.mk (lit "helo wrld") 0 4) [lit "hello"].

(** ** Auxiliary notions for the proofs *)

(** What [escapeHtml] makes of one character. *)
Definition escape_char (c : char) : jsstring :=
  if N.eqb c amp then lit "&amp;"
  else if N.eqb c lt then lit "&lt;"
  else if N.eqb c gt then lit "&gt;"
  else if N.eqb c dq then lit "&quot;"
  else if N.eqb c sq then lit "&#039;"
  else [c].

(** A reader of escaped text: an [&] starts an entity, which its second
    character tells, and the [skip] following characters belong to it. *)
Fixpoint unescape_go (skip : nat) (s : jsstring) : jsstring :=
  match s with
  | [] => []
  | c :: s' =>
      match skip with
      | S k => unescape_go k s'
      | O =>
          if N.eqb c amp then
            match s' with
            | [] => [c]
            | d :: _ =>
                if N.eqb d 97 then amp :: unescape_go 4 s'
                else if N.eqb d 108 then lt :: unescape_go 3 s'
                else if N.eqb d 103 then gt :: unescape_go 3 s'
                else if N.eqb d 113 then dq :: unescape_go 5 s'
                else sq :: unescape_go 5 s'
            end
          else c :: unescape_go 0 s'
      end
  end.

Definition unescapeHtml (s : jsstring) : jsstring := unescape_go 0 s.

(** The word count and the two labels of the stats, computed from the
    tokens of the text rather than by splitting it. *)
Definition spec_wordCount (B : jsstring) : nat :=
  match trim B with
  | [] => 0
  | t => count_tokens t
  end.

Definition count_label (n : nat) (noun : string) : jsstring :=
  dec n ++ lit " " ++ lit noun ++ (if Nat.eqb n 1 then [] else lit "s").

Definition is_alert (e : Effect) : bool :=
  match e with Alert _ => true | _ => false end.

Definition is_fetch (e : Effect) : bool :=
  match e with Fetch _ _ _ => true | _ => false end.

(** The controls as [setLoading(false)] leaves them. *)
Definition controls_idle (st : State) : Prop :=
  loader_hidden st = true /\ checkBtn_disabled st = false
  /\ checkBtn_opacity st = lit "1".

(** The request failed in transport or by its status. *)
Definition request_failed (o : Outcome) : Prop :=
  o = FetchRejected \/ o = StatusNotOk.

Definition has_offset (k : Z) (m : Match.t) : bool :=
  (Match.offset m =? k)%Z.

(** Is the last character of [s] white space?  [b] answers for the empty
    string. *)
Fixpoint last_is_ws (b : bool) (s : jsstring) : bool :=
  match s with
  | [] => b
  | c :: s' => last_is_ws (is_ws c) s'
  end.

(** A character that [escapeHtml] leaves as it is. *)
Definition plain_char (c : char) : bool :=
  negb (N.eqb c amp || N.eqb c lt || N.eqb c gt || N.eqb c dq
        || N.eqb c sq).

(** The three slices of the escaped context that a card shows, as
    [renderCard] cuts them. *)
Definition beforeCtx (m : Match.t) : jsstring :=
  substring (escapeHtml (Context.text (Match.context m))) 0
    (Context.offset (Match.context m)).

Definition errCtx (m : Match.t) : jsstring :=
  substring (escapeHtml (Context.text (Match.context m)))
    (Context.offset (Match.context m))
    (Context.offset (Match.context m) + Context.length (Match.context m)).

Definition afterCtx (m : Match.t) : jsstring :=
  substring_from (escapeHtml (Context.text (Match.context m)))
    (Context.offset (Match.context m) + Context.length (Match.context m)).

(** An issue with other replacements. *)
Definition with_replacements (reps : list jsstring) (m : Match.t) : Match.t :=
  Match.mk (Match.offset m) (Match.length m) (Match.issueType m)
    (Match.message m) (Match.context m) reps.

(** The number of [<] characters of a text. *)
Definition count_lt (s : jsstring) : nat := count_occ N.eq_dec s lt.

(** *** The page under a sequence of events *)

(** What can happen to the page: the user edits the buffer, clicks the
    check button, a request settles, or the user clicks a replacement
    button, which calls [applyReplacement] with the index and the text
    written into the button. *)
Inductive Event :=
| UserEdit (typed : jsstring)
| ClickCheck
| Settle (o : Outcome)
| ClickReplacement (matchIndex : Z) (replacementText : jsstring).

(** The page after the listener of an event has run.  A call of
    [applyReplacement] that raises has written nothing. *)
Definition handle (e : Event) (st : State) : State :=
  match e with
  | UserEdit typed => user_edit typed st
  | ClickCheck => fst (checkText_request st)
  | Settle o => fst (checkText_settle o st)
  | ClickReplacement i r =>
      match applyReplacement i r st with
      | Some p => fst p
      | None => st
      end
  end.

Definition run (evs : list Event) (st : State) : State :=
  fold_left (fun s e => handle e s) evs st.

Definition is_success (e : Event) : bool :=
  match e with Settle (Matches _) => true | _ => false end.

(** The overlay is the escaped text of some buffer, or the rendering of
    some buffer with the current Issue Set. *)
Definition overlay_ok (st : State) : Prop :=
  (exists B, highlights_innerHTML st = escapeHtml B)
  \/ (exists B,
        highlights_innerHTML st = highlightedText B (currentMatches st)).

(** The two counts shown are those of the buffer. *)
Definition stats_ok (st : State) : Prop :=
  charCount_textContent st = charCountLabel (editor_value st)
  /\ wordCount_textContent st = wordCountLabel (editor_value st).

(** The panel is the one [renderResults] draws for the current Issue
    Set. *)
Definition panel_ok (st : State) : Prop :=
  suggestionsList_innerHTML (renderResults st) = suggestionsList_innerHTML st.

(** The overlay text that a walk over the issues [l], in the order of
    [l], gives from the cursor [lastIndex] on, the first issue of [l]
    having the index [i]: for each issue the escaped text from the cursor
    to its offset and its mark, and after the last one the escaped rest
    of the buffer and the line-break marker. *)
Fixpoint walk (text : jsstring) (i : nat) (lastIndex : Z) (l : list Match.t)
  : jsstring :=
  match l with
  | [] =>
      escapeHtml (slice_from text lastIndex)
        ++ (if endsWith_nl text then lit "<br>" else [])
  | m :: l' =>
      escapeHtml (slice text lastIndex (Match.offset m))
        ++ renderMark text m i
        ++ walk text (S i) (Match.offset m + Match.length m)%Z l'
  end.

(** ** The escaper: one pass, concatenation, no markup left *)

Lemma replace_all_app (c : char) (r s t : jsstring) :
  replace_all c r (s ++ t) = replace_all c r s ++ replace_all c r t.
Proof. unfold replace_all. apply flat_map_app. Qed.

Lemma escapeHtml_app (s t : jsstring) :
  escapeHtml (s ++ t) = escapeHtml s ++ escapeHtml t.
Proof. unfold escapeHtml. now rewrite !replace_all_app. Qed.

Lemma escapeHtml_one (c : char) : escapeHtml [c] = escape_char c.
Proof.
  unfold escape_char.
  destruct (N.eqb_spec c amp) as [->|Ha]; [reflexivity|].
  destruct (N.eqb_spec c lt) as [->|Hl]; [reflexivity|].
  destruct (N.eqb_spec c gt) as [->|Hg]; [reflexivity|].
  destruct (N.eqb_spec c dq) as [->|Hd]; [reflexivity|].
  destruct (N.eqb_spec c sq) as [->|Hs]; [reflexivity|].
  apply N.eqb_neq in Ha, Hl, Hg, Hd, Hs.
  unfold escapeHtml, replace_all. simpl.
  rewrite Ha. simpl. rewrite Hl. simpl. rewrite Hg. simpl.
  rewrite Hd. simpl. now rewrite Hs.
Qed.

Lemma escapeHtml_cons (c : char) (s : jsstring) :
  escapeHtml (c :: s) = escape_char c ++ escapeHtml s.
Proof.
  change (c :: s) with ([c] ++ s).
  now rewrite escapeHtml_app, escapeHtml_one.
Qed.

Lemma escapeHtml_flat_map (s : jsstring) :
  escapeHtml s = flat_map escape_char s.
Proof.
  induction s as [|c s IH]; [reflexivity|].
  rewrite escapeHtml_cons, IH. reflexivity.
Qed.

Lemma escape_char_no_lt (c : char) : Forall (fun x => x <> lt) (escape_char c).
Proof.
  unfold escape_char.
  destruct (N.eqb_spec c amp); [repeat constructor; discriminate|].
  destruct (N.eqb_spec c lt) as [|Hl]; [repeat constructor; discriminate|].
  destruct (N.eqb_spec c gt); [repeat constructor; discriminate|].
  destruct (N.eqb_spec c dq); [repeat constructor; discriminate|].
  destruct (N.eqb_spec c sq); [repeat constructor; discriminate|].
  repeat constructor. exact Hl.
Qed.

Lemma escapeHtml_no_lt (s : jsstring) :
  Forall (fun x => x <> lt) (escapeHtml s).
Proof.
  induction s as [|c s IH]; [constructor|].
  rewrite escapeHtml_cons. apply Forall_app. split; [apply escape_char_no_lt|exact IH].
Qed.

Lemma unescape_escape_char (c : char) (rest : jsstring) :
  unescape_go 0 (escape_char c ++ rest) = c :: unescape_go 0 rest.
Proof.
  unfold escape_char.
  destruct (N.eqb_spec c amp) as [->|Ha]; [reflexivity|].
  destruct (N.eqb_spec c lt) as [->|Hl]; [reflexivity|].
  destruct (N.eqb_spec c gt) as [->|Hg]; [reflexivity|].
  destruct (N.eqb_spec c dq) as [->|Hd]; [reflexivity|].
  destruct (N.eqb_spec c sq) as [->|Hs]; [reflexivity|].
  simpl. apply N.eqb_neq in Ha. now rewrite Ha.
Qed.

Lemma unescape_escapeHtml (s : jsstring) : unescapeHtml (escapeHtml s) = s.
Proof.
  unfold unescapeHtml.
  induction s as [|c s IH]; [reflexivity|].
  rewrite escapeHtml_cons, unescape_escape_char, IH. reflexivity.
Qed.

(** ** The stats summarizer: splitting counts the tokens *)

Lemma str_eqb_nil (s : jsstring) : str_eqb s [] = true <-> s = [].
Proof.
  unfold str_eqb.
  match goal with
  | |- context [list_eq_dec ?d ?a ?b] => destruct (list_eq_dec d a b) as [e|n]
  end; simpl.
  - split; intros _; [exact e|reflexivity].
  - split; intros H; [discriminate H|destruct (n H)].
Qed.

Lemma trimStart_head (s : jsstring) (d : char) (y : jsstring) :
  trimStart s = d :: y -> is_ws d = false.
Proof.
  induction s as [|c s IH]; simpl; [discriminate|].
  destruct (is_ws c) eqn:E; [exact IH|].
  intros [= <- _]. exact E.
Qed.

Lemma trimStart_snoc (a : jsstring) (c : char) :
  is_ws c = false -> trimStart (a ++ [c]) = trimStart a ++ [c].
Proof.
  intros Hc. induction a as [|x a IH]; simpl.
  - now rewrite Hc.
  - destruct (is_ws x); [exact IH|reflexivity].
Qed.

Lemma trim_shape (s : jsstring) :
  trim s = match trimStart s with
           | [] => []
           | c :: u => c :: trimEnd u
           end.
Proof.
  unfold trim. destruct (trimStart s) as [|c u] eqn:E; [reflexivity|].
  pose proof (trimStart_head _ E) as Hc.
  unfold trimEnd. simpl rev.
  rewrite trimStart_snoc by exact Hc.
  rewrite rev_app_distr. reflexivity.
Qed.

Lemma last_is_ws_snoc (z : jsstring) (d : char) (b : bool) :
  last_is_ws b (z ++ [d]) = is_ws d.
Proof.
  revert b. induction z as [|x z IH]; intros b; simpl; [reflexivity|apply IH].
Qed.

Lemma trimEnd_last (u : jsstring) : last_is_ws false (trimEnd u) = false.
Proof.
  unfold trimEnd. destruct (trimStart (rev u)) as [|d y] eqn:E; [reflexivity|].
  simpl rev. rewrite last_is_ws_snoc. exact (trimStart_head _ E).
Qed.

(** The pieces of a split and the tokens, from a common position. *)
Lemma split_go_length (s : jsstring) :
  forall (b : bool) (cur : jsstring),
    (count_tokens_from b s + (if last_is_ws b s then 1 else 0) + 1 =
     List.length (split_go b cur s) + (if b then 1 else 0))%nat.
Proof.
  induction s as [|c s IH]; intros b cur; simpl.
  - destruct b; lia.
  - destruct (is_ws c) eqn:E.
    + destruct b; simpl.
      * apply IH.
      * specialize (IH true []). simpl in IH. lia.
    + specialize (IH false (c :: cur)). simpl in IH. destruct b; lia.
Qed.

Lemma wordCount_tokens (B : jsstring) : wordCount B = spec_wordCount B.
Proof.
  unfold wordCount, spec_wordCount.
  rewrite trim_shape. destruct (trimStart B) as [|c u] eqn:E; [reflexivity|].
  pose proof (trimStart_head _ E) as Hc.
  destruct (str_eqb (c :: trimEnd u) []) eqn:Hne;
    [apply str_eqb_nil in Hne; discriminate Hne|].
  unfold split_ws, count_tokens. simpl. rewrite Hc.
  pose proof (split_go_length (trimEnd u) false [c]) as H.
  rewrite trimEnd_last in H. simpl. lia.
Qed.

Lemma wordCount_zero (B : jsstring) : wordCount B = 0 <-> trim B = [].
Proof.
  unfold wordCount. destruct (str_eqb (trim B) []) eqn:E.
  - apply str_eqb_nil in E. tauto.
  - split.
    + unfold split_ws. destruct (trim B) as [|c t]; [reflexivity|].
      simpl. destruct (is_ws c); simpl; [discriminate|].
      pose proof (split_go_length t false [c]) as H. simpl in H.
      intros H0. exfalso. lia.
    + intros H. apply (proj2 (str_eqb_nil _)) in H. congruence.
Qed.

(** ** The sort of the highlight renderer *)

Section SortByOffset.

Local Open Scope Z_scope.

Lemma insert_sorted_perm (x : Match.t) (l : list Match.t) :
  Permutation (insert_sorted compare_offset x l) (x :: l).
Proof.
  induction l as [|y l IH]; simpl; [reflexivity|].
  destruct (compare_offset x y <=? 0); [reflexivity|].
  rewrite IH. apply perm_swap.
Qed.

Lemma sortedMatches_perm (ms : list Match.t) :
  Permutation (sortedMatches ms) ms.
Proof.
  unfold sortedMatches, sort.
  induction ms as [|x ms IH]; simpl; [reflexivity|].
  rewrite insert_sorted_perm. now constructor.
Qed.

Lemma insert_sorted_Forall (P : Match.t -> Prop) (x : Match.t)
  (l : list Match.t) :
  P x -> Forall P l -> Forall P (insert_sorted compare_offset x l).
Proof.
  intros Hx Hl.
  apply (Permutation_Forall (Permutation_sym (insert_sorted_perm x l))).
  now constructor.
Qed.

Lemma insert_sorted_sorted (x : Match.t) (l : list Match.t) :
  StronglySorted offset_le l ->
  StronglySorted offset_le (insert_sorted compare_offset x l).
Proof.
  induction 1 as [|y l Hl IH Hy]; simpl.
  - repeat constructor.
  - unfold compare_offset at 1. destruct (Z.leb_spec (Match.offset x - Match.offset y) 0) as [Hle|Hgt].
    + constructor; [now constructor|].
      constructor; [unfold offset_le; lia|].
      eapply Forall_impl; [|exact Hy]. unfold offset_le. intros a Ha. lia.
    + constructor; [exact IH|].
      apply insert_sorted_Forall; [unfold offset_le; lia|exact Hy].
Qed.

Lemma sortedMatches_sorted (ms : list Match.t) :
  StronglySorted offset_le (sortedMatches ms).
Proof.
  unfold sortedMatches, sort.
  induction ms as [|x ms IH]; simpl; [constructor|].
  now apply insert_sorted_sorted.
Qed.

(** An insertion passes over issues of smaller offset only, so it keeps
    the order of the issues of any one offset. *)
Lemma insert_sorted_filter (k : Z) (x : Match.t) (l : list Match.t) :
  filter (has_offset k) (insert_sorted compare_offset x l) =
  filter (has_offset k) (x :: l).
Proof.
  induction l as [|y l IH]; [reflexivity|].
  simpl insert_sorted. unfold compare_offset at 1.
  destruct (Z.leb_spec (Match.offset x - Match.offset y) 0) as [Hle|Hgt];
    [reflexivity|].
  simpl in *. rewrite IH. unfold has_offset.
  destruct (Z.eqb_spec (Match.offset x) k), (Z.eqb_spec (Match.offset y) k);
    try reflexivity.
  lia.
Qed.

Lemma sortedMatches_stable (k : Z) (ms : list Match.t) :
  filter (has_offset k) (sortedMatches ms) = filter (has_offset k) ms.
Proof.
  unfold sortedMatches, sort.
  induction ms as [|x ms IH]; [reflexivity|].
  simpl fold_right. rewrite insert_sorted_filter. simpl. now rewrite IH.
Qed.

(** Sorting an Issue Set that is in offset order changes nothing. *)
Lemma sortedMatches_sorted_id (ms : list Match.t) :
  sorted_by_offset ms -> sortedMatches ms = ms.
Proof.
  unfold sortedMatches, sort, sorted_by_offset.
  induction 1 as [|x l Hl IH Hx]; [reflexivity|].
  simpl. rewrite IH. destruct l as [|y l']; [reflexivity|].
  simpl. inversion Hx as [|? ? Hxy _]; subst.
  unfold offset_le in Hxy. unfold compare_offset.
  destruct (Z.leb_spec (Match.offset x - Match.offset y) 0); [reflexivity|lia].
Qed.

End SortByOffset.

(** ** The traversal with indices *)

Lemma forEach_from_fold (A S : Type) (f : S -> A -> nat -> S) (l : list A) :
  forall (i : nat) (acc : S),
    forEach_from f i l acc =
    fold_left (fun a p => f a (fst p) (snd p))
      (combine l (seq i (List.length l))) acc.
Proof.
  induction l as [|x l IH]; intros i acc; simpl; [reflexivity|apply IH].
Qed.

Lemma forEach_from_collect (A : Type) (l : list A) :
  forall (i : nat) (seen : list (A * nat)),
    rev (forEach_from (fun e x j => (x, j) :: e) i l seen) =
    rev seen ++ combine l (seq i (List.length l)).
Proof.
  induction l as [|x l IH]; intros i seen; simpl.
  - now rewrite app_nil_r.
  - rewrite IH. simpl. now rewrite <- app_assoc.
Qed.

(** The highlight renderer is a fold over the pairs of [highlight_entries],
    and the panel is one over those of [card_entries]. *)
Lemma forEach_entries (A S : Type) (f : S -> A -> nat -> S) (l : list A)
  (acc : S) :
  forEach f l acc =
  fold_left (fun a p => f a (fst p) (snd p))
    (rev (forEach (fun e x j => (x, j) :: e) l [])) acc.
Proof.
  unfold forEach. rewrite forEach_from_collect. simpl. apply forEach_from_fold.
Qed.

Lemma highlight_entries_fst (ms : list Match.t) :
  map fst (highlight_entries ms) = sortedMatches ms.
Proof.
  unfold highlight_entries, forEach. rewrite forEach_from_collect. simpl.
  generalize 0%nat. induction (sortedMatches ms) as [|x l IH]; intros i; simpl;
    [reflexivity|now rewrite IH].
Qed.

Lemma card_entries_fst (ms : list Match.t) : map fst (card_entries ms) = ms.
Proof.
  unfold card_entries, forEach. rewrite forEach_from_collect. simpl.
  generalize 0%nat. induction ms as [|x l IH]; intros i; simpl;
    [reflexivity|now rewrite IH].
Qed.

(** On an Issue Set in offset order the two views address alike. *)
Lemma entries_agree_when_sorted (ms : list Match.t) :
  sorted_by_offset ms -> highlight_entries ms = card_entries ms.
Proof.
  intros H. unfold highlight_entries, card_entries.
  now rewrite sortedMatches_sorted_id.
Qed.

(** ** Slices of the buffer *)

Section Slices.

Local Open Scope Z_scope.

Lemma firstn_add_skipn (A : Type) (n m : nat) (l : list A) :
  firstn (n + m) l = firstn n l ++ firstn m (skipn n l).
Proof.
  revert l. induction n as [|n IH]; intros l; [reflexivity|].
  destruct l as [|x l]; simpl.
  - now rewrite firstn_nil.
  - now rewrite IH.
Qed.

Lemma slice_cut (s : jsstring) (a b : Z) :
  0 <= a <= b -> b <= len s -> slice s a b = cut s a b.
Proof.
  intros Hab Hb. unfold slice, rel_index.
  destruct (Z.ltb_spec a 0); [lia|]. destruct (Z.ltb_spec b 0); [lia|].
  rewrite !Z.min_l by lia. now rewrite Z.max_r by lia.
Qed.

Lemma slice_from_cut (s : jsstring) (a : Z) :
  0 <= a <= len s -> slice_from s a = cut s a (len s).
Proof. intros H. unfold slice_from. apply slice_cut; lia. Qed.

Lemma cut_app (s : jsstring) (a b c : Z) :
  0 <= a <= b -> b <= c -> cut s a b ++ cut s b c = cut s a c.
Proof.
  intros Hab Hbc. unfold cut.
  replace (Z.to_nat (c - a)) with (Z.to_nat (b - a) + Z.to_nat (c - b))%nat
    by lia.
  rewrite firstn_add_skipn, skipn_skipn.
  replace (Z.to_nat (b - a) + Z.to_nat a)%nat with (Z.to_nat b) by lia.
  reflexivity.
Qed.

Lemma cut_all (s : jsstring) : cut s 0 (len s) = s.
Proof.
  unfold cut, len. simpl. rewrite Z.sub_0_r, Nat2Z.id. apply firstn_all.
Qed.

Lemma len_nonneg (s : jsstring) : 0 <= len s.
Proof. unfold len. lia. Qed.

Lemma substring_prefix (s : jsstring) (b : Z) :
  substring s 0 b = firstn (Z.to_nat b) s.
Proof.
  pose proof (len_nonneg s) as Hn.
  unfold substring, clamp, cut.
  replace (Z.min (Z.min (Z.max 0 0) (len s)) (Z.min (Z.max b 0) (len s)))
    with 0 by lia.
  replace (Z.max (Z.min (Z.max 0 0) (len s)) (Z.min (Z.max b 0) (len s)))
    with (Z.min (Z.max b 0) (len s)) by lia.
  simpl skipn. rewrite Z.sub_0_r.
  destruct (Z.le_gt_cases b (len s)) as [Hb|Hb].
  - f_equal. lia.
  - replace (Z.to_nat (Z.min (Z.max b 0) (len s))) with (List.length s)
      by (unfold len in *; lia).
    rewrite firstn_all. symmetry. apply firstn_all2. unfold len in *. lia.
Qed.

Lemma substring_suffix (s : jsstring) (a : Z) :
  substring_from s a = skipn (Z.to_nat a) s.
Proof.
  pose proof (len_nonneg s) as Hn.
  unfold substring_from, substring, clamp, cut.
  replace (Z.min (Z.min (Z.max a 0) (len s)) (Z.min (Z.max (len s) 0) (len s)))
    with (Z.min (Z.max a 0) (len s)) by lia.
  replace (Z.max (Z.min (Z.max a 0) (len s)) (Z.min (Z.max (len s) 0) (len s)))
    with (len s) by lia.
  destruct (Z.le_gt_cases a (len s)) as [Ha|Ha].
  - replace (Z.to_nat (Z.min (Z.max a 0) (len s))) with (Z.to_nat a) by lia.
    apply firstn_all2. rewrite length_skipn. unfold len in *. lia.
  - rewrite !skipn_all2 by (unfold len in *; lia). apply firstn_nil.
Qed.

End Slices.

(** ** Stripping the wrapper tags *)

Lemma starts_with_head (a c : char) (p s : jsstring) :
  c <> a -> starts_with (a :: p) (c :: s) = false.
Proof.
  intros H. cbn [starts_with].
  apply N.eqb_neq in H. rewrite N.eqb_sym, H. reflexivity.
Qed.

Lemma strip_text (e rest : jsstring) :
  Forall (fun x => x <> lt) e ->
  strip_go false (e ++ rest) = e ++ strip_go false rest.
Proof.
  induction 1 as [|c e Hc _ IH]; [reflexivity|].
  cbn [app strip_go].
  change (lit "<mark ") with (lt :: lit "mark ").
  change mark_close with (lt :: lit "/mark>").
  rewrite !starts_with_head by exact Hc.
  cbn [orb]. now rewrite IH.
Qed.

Lemma strip_in_tag (body rest : jsstring) :
  Forall (fun x => x <> gt) body ->
  strip_go true (body ++ gt :: rest) = strip_go false rest.
Proof.
  induction 1 as [|c body Hc _ IH]; cbn [app strip_go].
  - reflexivity.
  - apply N.eqb_neq in Hc. rewrite Hc. exact IH.
Qed.

Lemma uint_no_gt (u : Decimal.uint) :
  Forall (fun x => x <> gt) (lit (NilEmpty.string_of_uint u)).
Proof.
  induction u; simpl; constructor; try assumption; discriminate.
Qed.

Lemma dec_no_gt (n : nat) : Forall (fun x => x <> gt) (dec n).
Proof.
  unfold dec, NilZero.string_of_uint.
  destruct (Nat.to_uint n) eqn:E; try (rewrite <- E; apply uint_no_gt).
  repeat constructor. discriminate.
Qed.

Lemma typeClass_no_gt (m : Match.t) : Forall (fun x => x <> gt) (typeClass m).
Proof.
  unfold typeClass. destruct (is_misspelling m);
    repeat constructor; discriminate.
Qed.

Lemma strip_mark_open (m : Match.t) (i : nat) (rest : jsstring) :
  strip_go false (mark_open (typeClass m) i ++ rest) = strip_go false rest.
Proof.
  unfold mark_open, quoted.
  change (lit "<mark class=") with (lt :: lit "mark class=").
  change (lit ">") with [gt].
  set (cls := typeClass m).
  replace ((lt :: lit "mark class=") ++ (dq :: cls ++ [dq])
             ++ lit " data-index=" ++ (dq :: dec i ++ [dq]) ++ [gt])
    with (lt :: (lit "mark class=" ++ (dq :: cls ++ [dq])
                 ++ lit " data-index=" ++ (dq :: dec i ++ [dq])) ++ [gt])
    by (simpl; repeat (rewrite <- ?app_assoc; simpl); reflexivity).
  simpl app at 1. cbn [strip_go].
  replace (starts_with (lit "<mark ") _) with true by reflexivity.
  cbn [orb]. rewrite <- app_assoc. simpl ([gt] ++ rest).
  apply strip_in_tag.
  repeat (apply Forall_app; split);
    try apply typeClass_no_gt; try apply dec_no_gt;
    repeat constructor; try discriminate;
    try apply typeClass_no_gt; try apply dec_no_gt.
  all: repeat (apply Forall_app; split);
    try apply typeClass_no_gt; try apply dec_no_gt;
    repeat constructor; discriminate.
Qed.

Lemma strip_mark_close (rest : jsstring) :
  strip_go false (mark_close ++ rest) = strip_go false rest.
Proof. reflexivity. Qed.

Lemma strip_renderMark (B : jsstring) (m : Match.t) (i : nat)
  (rest : jsstring) :
  strip_go false (renderMark B m i ++ rest) =
  escapeHtml (slice B (Match.offset m) (Match.offset m + Match.length m))
    ++ strip_go false rest.
Proof.
  unfold renderMark. rewrite <- !app_assoc.
  rewrite strip_mark_open, strip_text by apply escapeHtml_no_lt.
  now rewrite strip_mark_close.
Qed.

(** ** The highlight renderer on a well-formed Issue Set *)

Section HighlightRun.

Local Open Scope Z_scope.

Variable B : jsstring.

(** The walk over issues that start at the cursor or later, end in the
    buffer and do not overlap: the text accumulated, with its tags
    stripped, is the escaped buffer up to the cursor. *)
Lemma highlight_run (ms : list Match.t) :
  forall (i : nat) (h : jsstring) (last : Z) (X : jsstring),
    0 <= last <= len B ->
    Forall (within_range B) ms ->
    Forall (fun m => last <= Match.offset m) ms ->
    non_overlapping ms ->
    (forall rest, strip_go false (h ++ rest) = X ++ strip_go false rest) ->
    exists h' last',
      forEach_from (highlight_step B) i ms (h, last) = (h', last')
      /\ last <= last' <= len B
      /\ forall rest,
           strip_go false (h' ++ rest) =
           X ++ escapeHtml (cut B last last') ++ strip_go false rest.
Proof.
  induction ms as [|m ms IH]; intros i h last X Hlast Hin Hge Hno Hh.
  - exists h, last. split; [reflexivity|]. split; [lia|].
    intros rest. rewrite Hh. unfold cut. now rewrite Z.sub_diag.
  - inversion Hin as [|? ? Hm Hin']; subst.
    inversion Hge as [|? ? Hlo Hge']; subst.
    inversion Hno as [|? ? Hall Hno']; subst.
    destruct Hm as (Ho & Hl & Hend).
    set (e := Match.offset m + Match.length m) in *.
    cbn [forEach_from highlight_step].
    destruct (IH (S i)
                (h ++ escapeHtml (slice B last (Match.offset m))
                   ++ renderMark B m i)
                e (X ++ escapeHtml (cut B last e)))
      as (h' & last' & Hrun & Hb & Hstrip).
    + lia.
    + exact Hin'.
    + eapply Forall_impl; [|exact Hall]. intros a Ha. exact Ha.
    + exact Hno'.
    + intros rest. rewrite <- !app_assoc, Hh.
      rewrite strip_text by apply escapeHtml_no_lt.
      rewrite strip_renderMark.
      rewrite !slice_cut by lia. fold e.
      rewrite <- (cut_app B (a:=last) (b:=Match.offset m) (c:=e)) by lia.
      rewrite escapeHtml_app. now rewrite <- !app_assoc.
    + exists h', last'. split; [exact Hrun|]. split; [lia|].
      intros rest. rewrite Hstrip.
      rewrite <- (cut_app B (a:=last) (b:=e) (c:=last')) by lia.
      rewrite escapeHtml_app. now rewrite <- !app_assoc.
Qed.

Lemma highlightedText_stripped (ms : list Match.t) :
  sorted_by_offset ms ->
  non_overlapping ms ->
  Forall (within_range B) ms ->
  strip_wrapper_tags (highlightedText B ms) =
  escapeHtml B ++ (if endsWith_nl B then lit "<br>" else []).
Proof.
  intros Hs Hno Hin.
  unfold highlightedText, forEach. rewrite (sortedMatches_sorted_id Hs).
  destruct (@highlight_run ms 0%nat [] 0 []) as (h' & last' & Hrun & Hb & Hstrip).
  - pose proof (len_nonneg B). lia.
  - exact Hin.
  - eapply Forall_impl; [|exact Hin]. intros a (Ha & _). exact Ha.
  - exact Hno.
  - reflexivity.
  - match goal with
    | |- context [forEach_from ?f ?i ?l ?a] =>
        replace (forEach_from f i l a) with (h', last')
          by (symmetry; exact Hrun)
    end.
    unfold strip_wrapper_tags.
    assert (E : forall tail,
      strip_go false ((h' ++ escapeHtml (slice_from B last')) ++ tail) =
      escapeHtml B ++ strip_go false tail).
    { intros tail. rewrite <- app_assoc, Hstrip. simpl.
      rewrite strip_text by apply escapeHtml_no_lt.
      rewrite slice_from_cut by lia.
      rewrite app_assoc, <- escapeHtml_app, cut_app by lia.
      now rewrite cut_all. }
    destruct (endsWith_nl B).
    + rewrite E. reflexivity.
    + rewrite <- (app_nil_r (h' ++ _)), E. reflexivity.
Qed.

End HighlightRun.

(** ** The claims of the specification *)

(** *** Stats summarizer *)

(** C7: for every buffer [B], the word count is [0] when the trimmed text
    is empty and otherwise the number of maximal white-space-delimited
    tokens of the trimmed text; and it is [0] exactly when the trimmed
    text is empty. *)
Theorem wordCount_spec (B : jsstring) :
  (trim B = [] -> wordCount B = 0)
  /\ (trim B <> [] -> wordCount B = count_tokens (trim B))
  /\ (wordCount B = 0 <-> trim B = []).
Proof.
  split; [|split].
  - intros H. now apply wordCount_zero.
  - intros H. rewrite wordCount_tokens. unfold spec_wordCount.
    destruct (trim B); [now destruct H|reflexivity].
  - apply wordCount_zero.
Qed.

(** *** Escaper *)

(** C9: [escapeHtml] is injective: two strings with the same escaped text
    are the same string. *)
Theorem escapeHtml_injective (s t : jsstring) :
  escapeHtml s = escapeHtml t -> s = t.
Proof.
  intros H.
  rewrite <- (unescape_escapeHtml s), <- (unescape_escapeHtml t).
  now rewrite H.
Qed.

Lemma escapeHtml_injective_witness :
  escapeHtml (lit "a<b & c") = escapeHtml (lit "a<b" ++ lit " & c")
  /\ lit "a<b & c" = lit "a<b" ++ lit " & c".
Proof.
  split; [reflexivity|].
  apply (@escapeHtml_injective (lit "a<b & c") (lit "a<b" ++ lit " & c")).
  reflexivity.
Defined.

(** *** Highlight renderer *)

Lemma forEach_from_walk (text : jsstring) (l : list Match.t) :
  forall (i : nat) (h : jsstring) (lastIndex : Z),
    (let '(h', last') :=
       forEach_from (highlight_step text) i l (h, lastIndex) in
     let h'' := h' ++ escapeHtml (slice_from text last') in
     if endsWith_nl text then h'' ++ lit "<br>" else h'')
    = h ++ walk text i lastIndex l.
Proof.
  induction l as [|m l IH]; intros i h lastIndex.
  - simpl. destruct (endsWith_nl text).
    + now rewrite <- app_assoc.
    + now rewrite app_nil_r.
  - cbn [forEach_from highlight_step walk]. rewrite IH.
    now rewrite <- !app_assoc.
Qed.

Lemma highlightedText_walk (text : jsstring) (ms : list Match.t) :
  highlightedText text ms = walk text 0 0 (sortedMatches ms).
Proof.
  unfold highlightedText, forEach.
  exact (forEach_from_walk text (sortedMatches ms) 0 [] 0).
Qed.

Lemma walk_mark (text : jsstring) (l : list Match.t) :
  forall (k i : nat) (lastIndex : Z) (m : Match.t),
    nth_error l k = Some m ->
    exists pre post,
      walk text i lastIndex l = pre ++ renderMark text m (i + k) ++ post.
Proof.
  induction l as [|x l IH]; intros k i lastIndex m Hk.
  - destruct k; discriminate Hk.
  - destruct k as [|k]; simpl in Hk.
    + injection Hk as ->. rewrite Nat.add_0_r. cbn [walk]. eexists. eexists.
      reflexivity.
    + destruct (IH k (S i) (Match.offset x + Match.length x)%Z m Hk)
        as (pre & post & E).
      cbn [walk]. rewrite E.
      exists (escapeHtml (slice text lastIndex (Match.offset x))
                ++ renderMark text x i ++ pre), post.
      replace (i + S k)%nat with (S i + k)%nat by lia.
      now rewrite <- !app_assoc.
Qed.

Lemma walk_two_marks (text : jsstring) (l : list Match.t) :
  forall (k1 k2 i : nat) (lastIndex : Z) (m1 m2 : Match.t),
    (k1 < k2)%nat ->
    nth_error l k1 = Some m1 ->
    nth_error l k2 = Some m2 ->
    exists a b c,
      walk text i lastIndex l =
      a ++ renderMark text m1 (i + k1) ++ b
        ++ renderMark text m2 (i + k2) ++ c.
Proof.
  induction l as [|x l IH]; intros k1 k2 i lastIndex m1 m2 Hlt H1 H2.
  - destruct k1; discriminate H1.
  - destruct k2 as [|k2]; [lia|]. simpl in H2.
    destruct k1 as [|k1]; simpl in H1.
    + injection H1 as ->.
      destruct (walk_mark text l k2 (S i)
                  (Match.offset m1 + Match.length m1)%Z H2)
        as (pre & post & E).
      cbn [walk]. rewrite E, Nat.add_0_r.
      replace (i + S k2)%nat with (S i + k2)%nat by lia.
      eexists. exists pre, post. reflexivity.
    + destruct (IH k1 k2 (S i) (Match.offset x + Match.length x)%Z m1 m2)
        as (a & b & c & E); [lia|exact H1|exact H2|].
      cbn [walk]. rewrite E.
      exists (escapeHtml (slice text lastIndex (Match.offset x))
                ++ renderMark text x i ++ a), b, c.
      replace (i + S k1)%nat with (S i + k1)%nat by lia.
      replace (i + S k2)%nat with (S i + k2)%nat by lia.
      now rewrite <- !app_assoc.
Qed.

Lemma sorted_nth_le (l : list Match.t) :
  StronglySorted offset_le l ->
  forall (i j : nat) (mi mj : Match.t),
    (i < j)%nat ->
    nth_error l i = Some mi -> nth_error l j = Some mj -> offset_le mi mj.
Proof.
  induction 1 as [|x l Hl IH Hx]; intros i j mi mj Hlt Hi Hj.
  - destruct i; discriminate Hi.
  - destruct j as [|j]; [lia|]. simpl in Hj.
    destruct i as [|i]; simpl in Hi.
    + injection Hi as ->. rewrite Forall_forall in Hx.
      apply Hx. eapply nth_error_In. exact Hj.
    + apply (IH i j); [lia|exact Hi|exact Hj].
Qed.

(** C8: for every buffer and every Issue Set, in any order, the overlay
    that [applyHighlights] writes is the text of the walk over the Issue
    Set's issues in ascending order of offset, the issues of one offset
    in their source order; in the overlay the mark of an issue of smaller
    offset stands before the mark of one of greater offset; and for the
    issues at offsets 5 and 0, listed in this order, the mark of the
    issue at offset 0 is written first. *)
Theorem applyHighlights_walks_sorted (st : State) :
  let text := editor_value st in
  let ms := currentMatches st in
  highlights_innerHTML (applyHighlights st)
  = walk text 0 0 (sortedMatches ms)
  /\ StronglySorted offset_le (sortedMatches ms)
  /\ Permutation (sortedMatches ms) ms
  /\ (forall k : Z,
        filter (has_offset k) (sortedMatches ms) = filter (has_offset k) ms)
  /\ (forall (i j : nat) (mi mj : Match.t),
        (i < j)%nat ->
        nth_error (sortedMatches ms) i = Some mi ->
        nth_error (sortedMatches ms) j = Some mj ->
        (Match.offset mi <= Match.offset mj)%Z
        /\ exists a b c,
             highlights_innerHTML (applyHighlights st) =
             a ++ renderMark text mi i ++ b ++ renderMark text mj j ++ c)
  /\ highlightedText (lit "ab cdefgh")
       [plain_match 5 3 "misspelling"; plain_match 0 2 "grammar"]
     = renderMark (lit "ab cdefgh") (plain_match 0 2 "grammar") 0
         ++ lit " cd"
         ++ renderMark (lit "ab cdefgh") (plain_match 5 3 "misspelling") 1
         ++ lit "h".
Proof.
  cbv zeta.
  assert (E : highlights_innerHTML (applyHighlights st)
              = walk (editor_value st) 0 0 (sortedMatches (currentMatches st)))
    by apply highlightedText_walk.
  split; [exact E|].
  split; [apply sortedMatches_sorted|].
  split; [apply sortedMatches_perm|].
  split; [intros k; apply sortedMatches_stable|].
  split; [|reflexivity].
  intros i j mi mj Hlt Hi Hj. split.
  - exact (sorted_nth_le (sortedMatches_sorted (currentMatches st))
             Hlt Hi Hj).
  - rewrite E.
    exact (walk_two_marks (editor_value st) _ 0 0%Z Hlt Hi Hj).
Qed.

(** C3, as the code has it: for every buffer [B] and every Issue Set
    whose issues are sorted by ascending offset, pairwise non-overlapping
    (each ends where any later one starts, or before) and within range of
    [B], the output of the highlight renderer with its wrapper tags
    stripped is [escapeHtml B], followed by the line-break marker when [B]
    ends with a newline. *)
Theorem highlightedText_roundtrip (B : jsstring) (ms : list Match.t) :
  sorted_by_offset ms ->
  non_overlapping ms ->
  Forall (within_range B) ms ->
  strip_wrapper_tags (highlightedText B ms) =
  escapeHtml B ++ (if endsWith_nl B then lit "<br>" else []).
Proof. apply highlightedText_stripped. Qed.

Lemma highlightedText_roundtrip_witness :
  sorted_by_offset [helo_match; wrld_match]
  /\ non_overlapping [helo_match; wrld_match]
  /\ Forall (within_range (lit "helo wrld")) [helo_match; wrld_match]
  /\ strip_wrapper_tags
       (highlightedText (lit "helo wrld") [helo_match; wrld_match])
     = escapeHtml (lit "helo wrld")
         ++ (if endsWith_nl (lit "helo wrld") then lit "<br>" else []).
Proof.
  assert (Hs : sorted_by_offset [helo_match; wrld_match]).
  { repeat constructor; unfold offset_le; simpl; lia. }
  assert (Hn : non_overlapping [helo_match; wrld_match]).
  { repeat constructor; unfold ends_before; simpl; lia. }
  assert (Hr : Forall (within_range (lit "helo wrld"))
                 [helo_match; wrld_match]).
  { constructor; [|constructor; [|constructor]];
      unfold within_range, len; simpl; lia. }
  split; [exact Hs|]. split; [exact Hn|]. split; [exact Hr|].
  exact (@highlightedText_roundtrip (lit "helo wrld")
           [helo_match; wrld_match] Hs Hn Hr).
Defined.

(** The second hypothesis is about ends and starts: an empty issue that
    lies inside another one shares no character with it, yet the walk
    moves its cursor back and repeats a part of the buffer. *)
Example highlightedText_empty_issue_inside :
  strip_wrapper_tags
    (highlightedText (lit "abcdefgh")
       [plain_match 3 4 "grammar"; plain_match 5 0 "grammar"])
  = lit "abcdefgfgh".
Proof. reflexivity. Qed.

(** C3, as stated, fails on a buffer that ends with a newline: the
    line-break marker is no wrapper tag and stays. *)
Lemma highlightedText_roundtrip_counterexample :
  ~ (forall (B : jsstring) (ms : list Match.t),
       sorted_by_offset ms ->
       non_overlapping ms ->
       Forall (within_range B) ms ->
       strip_wrapper_tags (highlightedText B ms) = escapeHtml B).
Proof.
  intros H.
  specialize (H (lit "ok" ++ [nl]) []
                (SSorted_nil offset_le) (FOP_nil ends_before)
                (Forall_nil _)).
  assert (E : strip_wrapper_tags (highlightedText (lit "ok" ++ [nl]) [])
              = lit "ok" ++ [nl] ++ lit "<br>") by reflexivity.
  rewrite E in H. discriminate H.
Qed.

(** C1 does not hold of the code.  The service lists the issue at offset 5
    before the one at offset 0: the highlight of [helo] carries index 0
    and that of [wrld] index 1, while the card of [wrld] is [card-0] and
    that of [helo] is [card-1], so a click on the highlight of [helo]
    scrolls to the card of [wrld]. *)
Theorem highlight_index_is_sorted_position :
  let text := lit "helo wrld" in
  let ms := [wrld_match; helo_match] in
  let st := fst (checkText_settle (Matches ms) (page text [])) in
  currentMatches st = ms
  /\ highlights_innerHTML st =
     renderMark text helo_match 0 ++ lit " " ++ renderMark text wrld_match 1
  /\ suggestionsList_innerHTML st =
     renderCard wrld_match 0 ++ renderCard helo_match 1
  /\ highlight_entries ms = [(helo_match, 0); (wrld_match, 1)]
  /\ card_entries ms = [(wrld_match, 0); (helo_match, 1)]
  /\ click_target 0 = card_id 0
  /\ click_target 1 = card_id 1.
Proof. cbv zeta. repeat split; vm_compute; reflexivity. Qed.

(** *** Buffer edits *)

Lemma user_edit_fields (typed : jsstring) (st : State) :
  editor_value (user_edit typed st) = typed
  /\ highlights_innerHTML (user_edit typed st) = escapeHtml typed
  /\ currentMatches (user_edit typed st) = currentMatches st
  /\ suggestionsList_innerHTML (user_edit typed st) =
     suggestionsList_innerHTML st.
Proof. repeat split. Qed.

(** C2 does not hold of the code: an edit sets the overlay to the plain
    escaped text of the buffer, but it leaves the Issue Set and the panel
    as they were.  After the check of the scenario, typing one more
    character leaves the one issue in the Issue Set. *)
Theorem user_edit_keeps_issue_set :
  (forall (typed : jsstring) (st : State),
     highlights_innerHTML (user_edit typed st) = escapeHtml typed
     /\ currentMatches (user_edit typed st) = currentMatches st
     /\ suggestionsList_innerHTML (user_edit typed st) =
        suggestionsList_innerHTML st)
  /\ let st :=
       fst (checkText_settle (Matches [dog_match])
              (page (lit "I has a dog") [])) in
     currentMatches st = [dog_match]
     /\ currentMatches (user_edit (lit "I has a dogs") st) = [dog_match]
     /\ List.length (currentMatches (user_edit (lit "I has a dogs") st)) = 1
     /\ highlights_innerHTML (user_edit (lit "I has a dogs") st) =
        lit "I has a dogs".
Proof.
  split.
  - intros typed st. repeat split.
  - cbv zeta. repeat split.
Qed.

(** *** Check cycle *)

Lemma setLoading_false_idle (st : State) :
  controls_idle st -> setLoading false st = st.
Proof.
  intros (H1 & H2 & H3). destruct st; simpl in *. now subst.
Qed.

Lemma setLoading_false_true (st : State) :
  controls_idle st -> setLoading false (setLoading true st) = st.
Proof.
  intros (H1 & H2 & H3). destruct st; simpl in *. now subst.
Qed.

(** C6: for every buffer whose trimmed content is empty, triggering a
    check changes nothing and sends no request to the checking service. *)
Theorem checkText_blank_noop (st : State) :
  trim (editor_value st) = [] ->
  checkText_request st = (st, [])
  /\ filter is_fetch (snd (checkText_request st)) = [].
Proof.
  intros H. unfold checkText_request.
  apply (proj2 (str_eqb_nil _)) in H. rewrite H. split; reflexivity.
Qed.

Lemma checkText_blank_noop_witness :
  trim (editor_value (page [32; 9; nl; 32]%N [dog_match])) = []
  /\ checkText_request (page [32; 9; nl; 32]%N [dog_match])
     = (page [32; 9; nl; 32]%N [dog_match], []).
Proof.
  split; [reflexivity|].
  apply (@checkText_blank_noop (page [32; 9; nl; 32]%N [dog_match])).
  reflexivity.
Defined.

(** C5: for every check whose request ends in a transport failure or a
    non-success status, one error notification is shown, no request is
    sent again, and the Issue Set, the buffer, the overlay, the panel, the
    badge and the stats are as before; only the busy controls are reset,
    so a check started from the idle page ends in the very state it
    started from. *)
Theorem checkText_failure_atomic (o : Outcome) (st : State) :
  request_failed o ->
  let st' := fst (checkText_settle o st) in
  let eff := snd (checkText_settle o st) in
  List.length (filter is_alert eff) = 1
  /\ filter is_fetch eff = []
  /\ currentMatches st' = currentMatches st
  /\ st' = setLoading false st
  /\ (controls_idle st -> st' = st)
  /\ (controls_idle st ->
      fst (checkText_settle o (fst (checkText_request st))) = st).
Proof.
  intros [-> | ->]; cbv zeta; simpl.
  all: repeat split; try (apply setLoading_false_idle).
  all: intros Hidle; unfold checkText_request;
    destruct (str_eqb (trim (editor_value st)) []); simpl;
    [now apply setLoading_false_idle|now apply setLoading_false_true].
Qed.

Lemma checkText_failure_atomic_witness :
  request_failed StatusNotOk
  /\ fst (checkText_settle StatusNotOk
            (fst (checkText_request (page (lit "I has a dog") [dog_match]))))
     = page (lit "I has a dog") [dog_match].
Proof.
  split; [right; reflexivity|].
  refine (proj2 (proj2 (proj2 (proj2 (proj2
    (@checkText_failure_atomic StatusNotOk
       (page (lit "I has a dog") [dog_match]) _))))) _).
  - right; reflexivity.
  - repeat split.
Defined.

(** *** Replacement applier *)

Lemma array_get_Some (A : Type) (l : list A) (i : Z) :
  (0 <= i < Z.of_nat (List.length l))%Z -> exists x, array_get l i = Some x.
Proof.
  intros H. unfold array_get.
  destruct (Z.ltb_spec i 0); [lia|].
  destruct (nth_error l (Z.to_nat i)) eqn:E; [now eexists|].
  apply nth_error_None in E. lia.
Qed.

Lemma array_get_None (A : Type) (l : list A) (i : Z) :
  ~ (0 <= i < Z.of_nat (List.length l))%Z -> array_get l i = None.
Proof.
  intros H. unfold array_get.
  destruct (Z.ltb_spec i 0); [reflexivity|].
  apply nth_error_None. lia.
Qed.

(** Outside the Issue Set the lookup gives [undefined] and the call
    raises. *)
Lemma applyReplacement_out_of_range (i : Z) (r : jsstring) (st : State) :
  ~ (0 <= i < Z.of_nat (List.length (currentMatches st)))%Z ->
  applyReplacement i r st = None.
Proof.
  intros H. unfold applyReplacement. now rewrite array_get_None.
Qed.

Lemma newText_splice (B : jsstring) (offset length : Z) (r : jsstring) :
  (0 <= offset)%Z ->
  substring B 0 offset ++ r ++ substring_from B (offset + length)
  = splice B offset length r.
Proof.
  intros H. unfold splice, range, range_from.
  rewrite substring_prefix, substring_suffix. simpl Z.to_nat.
  now rewrite Nat.sub_0_r.
Qed.

Lemma count_label_character (n : nat) :
  dec n ++ lit " character" ++ plural n = count_label n "character".
Proof. reflexivity. Qed.

Lemma count_label_word (n : nat) :
  dec n ++ lit " word" ++ plural n = count_label n "word".
Proof. reflexivity. Qed.

(** C4: for every buffer [B], every issue [m] at the given index of the
    Issue Set, and every replacement [r], the call stores the buffer
    [B[0:offset] + r + B[offset+length:]], sets the two stats to the
    counts of that very text, and then runs [checkText] on the page with
    the new buffer: the Issue Set is left as it is, and the request, sent
    unless the new buffer is blank, carries the new buffer. *)
Theorem applyReplacement_effect (i : Z) (r : jsstring) (st : State)
  (m : Match.t) :
  array_get (currentMatches st) i = Some m ->
  (0 <= Match.offset m)%Z ->
  (0 <= Match.length m)%Z ->
  let newText :=
    splice (editor_value st) (Match.offset m) (Match.length m) r in
  exists st1 : State,
    applyReplacement i r st = Some (checkText_request st1)
    /\ editor_value st1 = newText
    /\ charCount_textContent st1
       = count_label (List.length newText) "character"
    /\ wordCount_textContent st1
       = count_label (spec_wordCount newText) "word"
    /\ currentMatches st1 = currentMatches st
    /\ editor_value (fst (checkText_request st1)) = newText
    /\ currentMatches (fst (checkText_request st1)) = currentMatches st
    /\ (trim newText <> [] ->
        snd (checkText_request st1)
        = [Fetch LANGUAGETOOL_API newText LANGUAGE])
    /\ (trim newText = [] -> checkText_request st1 = (st1, [])).
Proof.
  intros Hget Ho Hl newText.
  exists (updateStats (set_editor_value newText st)).
  unfold applyReplacement. rewrite Hget.
  rewrite newText_splice by exact Ho. fold newText.
  split; [reflexivity|]. split; [reflexivity|].
  split; [apply count_label_character|].
  split.
  { simpl. unfold wordCountLabel. rewrite wordCount_tokens.
    apply count_label_word. }
  split; [reflexivity|].
  unfold checkText_request.
  change (editor_value (updateStats (set_editor_value newText st)))
    with newText.
  destruct (str_eqb (trim newText) []) eqn:E.
  - apply str_eqb_nil in E.
    repeat split; try reflexivity. intros H. now destruct H.
  - repeat split; try reflexivity. intros H.
    apply (proj2 (str_eqb_nil _)) in H. congruence.
Qed.

Lemma applyReplacement_effect_witness :
  array_get (currentMatches (page (lit "I has a dog") [dog_match])) 0
    = Some dog_match
  /\ exists st1 : State,
       applyReplacement 0 (lit "have") (page (lit "I has a dog") [dog_match])
         = Some (checkText_request st1)
       /\ editor_value st1 = lit "I have a dog".
Proof.
  split; [reflexivity|].
  destruct (@applyReplacement_effect 0 (lit "have")
              (page (lit "I has a dog") [dog_match]) dog_match)
    as (st1 & H1 & H2 & _).
  - reflexivity.
  - simpl; lia.
  - simpl; lia.
  - exists st1. split; [exact H1|exact H2].
Defined.

(** C10: [applyReplacement] does not check its index; for every call with
    [0 <= matchIndex < currentMatches.length] the issue is found, its
    offset and length are read and the splice is done: the call does not
    raise. *)
Theorem applyReplacement_in_range (i : Z) (r : jsstring) (st : State) :
  (0 <= i < Z.of_nat (List.length (currentMatches st)))%Z ->
  exists m : Match.t,
    array_get (currentMatches st) i = Some m
    /\ applyReplacement i r st =
       Some (checkText_request
               (updateStats
                  (set_editor_value
                     (substring (editor_value st) 0 (Match.offset m) ++ r
                        ++ substring_from (editor_value st)
                             (Match.offset m + Match.length m)) st)))
    /\ applyReplacement i r st <> None.
Proof.
  intros H. destruct (array_get_Some (currentMatches st) H) as [m Hm].
  exists m. unfold applyReplacement. rewrite Hm.
  split; [reflexivity|]. split; [reflexivity|discriminate].
Qed.

Lemma applyReplacement_in_range_witness :
  (0 <= 1 < Z.of_nat (List.length [wrld_match; helo_match]))%Z
  /\ applyReplacement 1 (lit "hello")
       (page (lit "helo wrld") [wrld_match; helo_match]) <> None.
Proof.
  split; [simpl; lia|].
  destruct (@applyReplacement_in_range 1 (lit "hello")
              (page (lit "helo wrld") [wrld_match; helo_match]))
    as (m & _ & _ & H).
  - simpl; lia.
  - exact H.
Defined.

(** ** Further properties of the escaper *)

Lemma escape_char_cases (c : char) :
  (plain_char c = true /\ escape_char c = [c])
  \/ (plain_char c = false
      /\ exists e, escape_char c = amp :: e /\ (1 < List.length (escape_char c))%nat
                   /\ Forall (fun x => x <> lt /\ x <> gt /\ x <> dq /\ x <> sq)
                        (escape_char c)).
Proof.
  unfold escape_char, plain_char.
  destruct (N.eqb_spec c amp) as [->|Ha].
  { right. split; [reflexivity|]. eexists. split; [reflexivity|].
    split; [simpl; lia|]. repeat constructor; discriminate. }
  destruct (N.eqb_spec c lt) as [->|Hl].
  { right. split; [reflexivity|]. eexists. split; [reflexivity|].
    split; [simpl; lia|]. repeat constructor; discriminate. }
  destruct (N.eqb_spec c gt) as [->|Hg].
  { right. split; [reflexivity|]. eexists. split; [reflexivity|].
    split; [simpl; lia|]. repeat constructor; discriminate. }
  destruct (N.eqb_spec c dq) as [->|Hd].
  { right. split; [reflexivity|]. eexists. split; [reflexivity|].
    split; [simpl; lia|]. repeat constructor; discriminate. }
  destruct (N.eqb_spec c sq) as [->|Hs].
  { right. split; [reflexivity|]. eexists. split; [reflexivity|].
    split; [simpl; lia|]. repeat constructor; discriminate. }
  left. split; reflexivity.
Qed.

Lemma plain_char_neq (c : char) :
  plain_char c = true ->
  c <> amp /\ c <> lt /\ c <> gt /\ c <> dq /\ c <> sq.
Proof.
  unfold plain_char.
  destruct (N.eqb_spec c amp), (N.eqb_spec c lt), (N.eqb_spec c gt),
    (N.eqb_spec c dq), (N.eqb_spec c sq); simpl; try discriminate.
  intros _. repeat split; assumption.
Qed.

Lemma escapeHtml_length (s : jsstring) :
  (List.length s <= List.length (escapeHtml s))%nat.
Proof.
  induction s as [|c s IH]; [apply Nat.le_refl|].
  rewrite escapeHtml_cons, length_app. simpl List.length.
  destruct (escape_char_cases c) as [(_ & ->)|(_ & e & _ & Hlen & _)];
    simpl; lia.
Qed.

Lemma escapeHtml_plain (s : jsstring) :
  forallb plain_char s = true -> escapeHtml s = s.
Proof.
  induction s as [|c s IH]; [reflexivity|]. simpl forallb.
  intros H. apply andb_true_iff in H. destruct H as (Hc & Hs).
  rewrite escapeHtml_cons, (IH Hs).
  destruct (escape_char_cases c) as [(_ & ->)|(Hn & _)];
    [reflexivity|congruence].
Qed.

Lemma escapeHtml_fixed (s : jsstring) :
  escapeHtml s = s -> forallb plain_char s = true.
Proof.
  induction s as [|c s IH]; [reflexivity|].
  rewrite escapeHtml_cons. intros H. simpl forallb.
  pose proof (escapeHtml_length s) as Hs.
  pose proof (f_equal (@List.length char) H) as Hlen.
  rewrite length_app in Hlen. simpl in Hlen.
  destruct (escape_char_cases c) as [(Hp & E)|(_ & e & _ & Hl & _)]; [|lia].
  rewrite Hp. rewrite E in H. simpl in H. injection H as H. now apply IH.
Qed.

Lemma escapeHtml_keeps_plain (s : jsstring) :
  forallb plain_char (escapeHtml s) = forallb plain_char s.
Proof.
  induction s as [|c s IH]; [reflexivity|].
  rewrite escapeHtml_cons, forallb_app, IH. simpl forallb.
  destruct (escape_char_cases c) as [(Hp & ->)|(Hp & e & -> & _)].
  - simpl. now rewrite andb_true_r.
  - rewrite Hp. reflexivity.
Qed.

(** X1: The escaped text holds none of the characters [<] and [>] and
    neither kind of quote: whatever the user typed, it brings no tag and
    closes no attribute. *)
Theorem escapeHtml_no_markup (s : jsstring) :
  Forall (fun x => x <> lt /\ x <> gt /\ x <> dq /\ x <> sq) (escapeHtml s).
Proof.
  induction s as [|c s IH]; [constructor|].
  rewrite escapeHtml_cons. apply Forall_app. split; [|exact IH].
  destruct (escape_char_cases c) as [(Hp & ->)|(_ & e & _ & _ & H)];
    [|exact H].
  constructor; [|constructor].
  destruct (plain_char_neq _ Hp) as (_ & H1 & H2 & H3 & H4). auto.
Qed.

(** X2: Escaping the pieces of a text and joining them is escaping the text:
    the renderers may escape slice by slice. *)
Theorem escapeHtml_concat (pieces : list jsstring) :
  escapeHtml (List.concat pieces) = List.concat (map escapeHtml pieces).
Proof.
  induction pieces as [|p ps IH]; [reflexivity|].
  simpl. now rewrite escapeHtml_app, IH.
Qed.

(** X3: The escaper changes a text exactly when the text holds one of the five
    characters it replaces (the ampersand, the two angle brackets and the
    two quotes); and it never shortens a text. *)
Theorem escapeHtml_identity_iff (s : jsstring) :
  (escapeHtml s = s <-> forallb plain_char s = true)
  /\ (List.length s <= List.length (escapeHtml s))%nat.
Proof.
  split; [split; [apply escapeHtml_fixed|apply escapeHtml_plain]|].
  apply escapeHtml_length.
Qed.

(** X4: Escaping twice differs from escaping once exactly on the texts the
    escaper changes: the escaper must meet a text once only. *)
Theorem escapeHtml_twice_iff (s : jsstring) :
  escapeHtml (escapeHtml s) = escapeHtml s <-> forallb plain_char s = true.
Proof.
  rewrite <- escapeHtml_keeps_plain. split.
  - apply escapeHtml_fixed.
  - apply escapeHtml_plain.
Qed.

(** ** Further properties of the stats summarizer and the blank guard *)

Lemma trimStart_split (s : jsstring) :
  exists p, s = p ++ trimStart s /\ Forall (fun c => is_ws c = true) p.
Proof.
  induction s as [|c s (p & E & Hp)]; [now exists []|].
  simpl. destruct (is_ws c) eqn:Hc.
  - exists (c :: p). split; [simpl; now rewrite <- E|now constructor].
  - now exists [].
Qed.

Lemma trimEnd_split (s : jsstring) :
  exists w, s = trimEnd s ++ w /\ Forall (fun c => is_ws c = true) w.
Proof.
  destruct (trimStart_split (rev s)) as (p & E & Hp).
  exists (rev p). split; [|now apply Forall_rev].
  unfold trimEnd. rewrite <- rev_app_distr, <- E. symmetry. apply rev_involutive.
Qed.

Lemma count_tokens_ws_prefix (p s : jsstring) :
  Forall (fun c => is_ws c = true) p ->
  count_tokens_from true (p ++ s) = count_tokens_from true s.
Proof.
  induction 1 as [|c p Hc _ IH]; [reflexivity|]. simpl. now rewrite Hc.
Qed.

Lemma count_tokens_ws_suffix (w : jsstring) :
  Forall (fun c => is_ws c = true) w ->
  forall (x : jsstring) (b : bool),
    count_tokens_from b (x ++ w) = count_tokens_from b x.
Proof.
  intros Hw x. induction x as [|c x IH]; intros b; simpl.
  - clear -Hw. revert b. induction Hw as [|c w Hc _ IH]; intros b;
      [reflexivity|]. simpl. rewrite Hc. apply IH.
  - destruct (is_ws c); now rewrite IH.
Qed.

Lemma count_tokens_trim (s : jsstring) :
  count_tokens (trim s) = count_tokens s.
Proof.
  unfold count_tokens, trim.
  destruct (trimStart_split s) as (p & Es & Hp).
  destruct (trimEnd_split (trimStart s)) as (w & Ew & Hw).
  rewrite Es at 2. rewrite count_tokens_ws_prefix by exact Hp.
  rewrite Ew at 2. now rewrite count_tokens_ws_suffix by exact Hw.
Qed.

Lemma wordCount_count_tokens (B : jsstring) : wordCount B = count_tokens B.
Proof.
  rewrite wordCount_tokens, <- count_tokens_trim. unfold spec_wordCount.
  now destruct (trim B).
Qed.

Lemma count_tokens_from_sep (w : char) (rest : jsstring) :
  is_ws w = true ->
  forall (a : jsstring) (b : bool),
    count_tokens_from b (a ++ w :: rest) =
    (count_tokens_from b a + count_tokens_from true rest)%nat.
Proof.
  intros Hw a. induction a as [|c a IH]; intros b; simpl.
  - now rewrite Hw.
  - destruct (is_ws c); rewrite IH; lia.
Qed.

Lemma count_tokens_from_bound (s : jsstring) :
  forall b : bool,
    (2 * count_tokens_from b s <= List.length s + (if b then 1 else 0))%nat.
Proof.
  induction s as [|c s IH]; intros b; simpl.
  - destruct b; lia.
  - destruct (is_ws c).
    + specialize (IH true). simpl in IH. destruct b; lia.
    + specialize (IH false). simpl in IH. destruct b; lia.
Qed.

Lemma trimStart_nil_iff (s : jsstring) :
  trimStart s = [] <-> forallb is_ws s = true.
Proof.
  induction s as [|c s IH]; simpl; [tauto|].
  destruct (is_ws c); simpl; [exact IH|]. split; discriminate.
Qed.

Lemma trim_nil_iff (s : jsstring) : trim s = [] <-> forallb is_ws s = true.
Proof.
  rewrite <- trimStart_nil_iff, trim_shape.
  destruct (trimStart s); split; intros H; try reflexivity; discriminate H.
Qed.

(** X5: The word count shown is the number of maximal runs of characters that
    are not white space in the buffer as it is: white space around the
    text does not count. *)
Theorem wordCount_counts_runs (B : jsstring) :
  wordCount B = count_tokens B /\ wordCount (trim B) = wordCount B.
Proof.
  split; [apply wordCount_count_tokens|].
  now rewrite !wordCount_count_tokens, count_tokens_trim.
Qed.

(** X6: The words of two texts joined by a white-space character are the
    words of the one and the words of the other. *)
Theorem wordCount_additive (a b : jsstring) (w : char) :
  is_ws w = true ->
  wordCount (a ++ w :: b) = (wordCount a + wordCount b)%nat.
Proof.
  intros Hw. rewrite !wordCount_count_tokens. unfold count_tokens.
  now apply count_tokens_from_sep.
Qed.

Lemma wordCount_additive_witness :
  is_ws nl = true
  /\ wordCount (lit "I has" ++ nl :: lit " a dog")
     = (wordCount (lit "I has") + wordCount (lit " a dog"))%nat.
Proof.
  split; [reflexivity|].
  apply (@wordCount_additive (lit "I has") (lit " a dog") nl). reflexivity.
Defined.

(** X7: A buffer of [n] characters has at most [(n + 1) / 2] words. *)
Theorem wordCount_bound (B : jsstring) :
  (2 * wordCount B <= List.length B + 1)%nat.
Proof.
  rewrite wordCount_count_tokens. apply (count_tokens_from_bound B true).
Qed.

(** X8: [checkText] sends its request exactly when the buffer holds a
    character that is not white space, which is exactly when the word
    count shown is not [0]; the request carries the buffer and the fixed
    locale, and the controls turn busy. *)
Theorem checkText_request_guard (st : State) :
  (forallb is_ws (editor_value st) = true -> checkText_request st = (st, []))
  /\ (forallb is_ws (editor_value st) = false ->
      checkText_request st =
      (setLoading true st,
       [Fetch LANGUAGETOOL_API (editor_value st) LANGUAGE]))
  /\ (snd (checkText_request st) = [] <-> wordCount (editor_value st) = 0).
Proof.
  unfold checkText_request.
  destruct (str_eqb (trim (editor_value st)) []) eqn:E.
  - apply str_eqb_nil in E. split; [reflexivity|]. split.
    + intros H. apply trim_nil_iff in E. congruence.
    + split; [intros _; now apply wordCount_zero|reflexivity].
  - assert (Hne : trim (editor_value st) <> []).
    { intros H. apply (proj2 (str_eqb_nil _)) in H. congruence. }
    split; [|split].
    + intros H. apply trim_nil_iff in H. contradiction.
    + reflexivity.
    + simpl. split; [discriminate|].
      intros H. apply wordCount_zero in H. contradiction.
Qed.

(** ** Further properties of the highlight renderer *)

Lemma uint_digits (u : Decimal.uint) :
  Forall (fun x => (48 <= x <= 57)%N) (lit (NilEmpty.string_of_uint u)).
Proof.
  induction u; [apply Forall_nil|..];
    (apply Forall_cons; [vm_compute; split; discriminate|assumption]).
Qed.

Lemma dec_digits (n : nat) : Forall (fun x => (48 <= x <= 57)%N) (dec n).
Proof.
  unfold dec, NilZero.string_of_uint.
  destruct (Nat.to_uint n) as [|u|u|u|u|u|u|u|u|u|u];
    [|apply (uint_digits (Decimal.D0 u))|apply (uint_digits (Decimal.D1 u))
     |apply (uint_digits (Decimal.D2 u))|apply (uint_digits (Decimal.D3 u))
     |apply (uint_digits (Decimal.D4 u))|apply (uint_digits (Decimal.D5 u))
     |apply (uint_digits (Decimal.D6 u))|apply (uint_digits (Decimal.D7 u))
     |apply (uint_digits (Decimal.D8 u))|apply (uint_digits (Decimal.D9 u))].
  apply Forall_cons; [vm_compute; split; discriminate|apply Forall_nil].
Qed.

Lemma count_lt_app (s t : jsstring) :
  count_lt (s ++ t) = (count_lt s + count_lt t)%nat.
Proof. apply count_occ_app. Qed.

Lemma count_lt_none (s : jsstring) :
  Forall (fun x => x <> lt) s -> count_lt s = 0%nat.
Proof.
  intros H. apply count_occ_not_In. intros Hin.
  rewrite Forall_forall in H. exact (H _ Hin eq_refl).
Qed.

Lemma count_lt_escapeHtml (s : jsstring) : count_lt (escapeHtml s) = 0%nat.
Proof. apply count_lt_none, escapeHtml_no_lt. Qed.

Lemma count_lt_dec (n : nat) : count_lt (dec n) = 0%nat.
Proof.
  apply count_lt_none. eapply Forall_impl; [|apply dec_digits].
  intros a Ha ->. unfold lt in Ha. lia.
Qed.

Lemma count_lt_renderMark (text : jsstring) (m : Match.t) (i : nat) :
  count_lt (renderMark text m i) = 2%nat.
Proof.
  unfold renderMark, mark_open.
  change (quoted (typeClass m)) with ([dq] ++ typeClass m ++ [dq]).
  change (quoted (dec i)) with ([dq] ++ dec i ++ [dq]).
  rewrite !count_lt_app, count_lt_escapeHtml, count_lt_dec.
  unfold typeClass. destruct (is_misspelling m); reflexivity.
Qed.

Lemma count_lt_run (text : jsstring) (ms : list Match.t) :
  forall (i : nat) (h : jsstring) (last : Z),
    count_lt (fst (forEach_from (highlight_step text) i ms (h, last)))
    = (count_lt h + 2 * List.length ms)%nat.
Proof.
  induction ms as [|m ms IH]; intros i h last.
  - simpl. lia.
  - cbn [forEach_from highlight_step]. rewrite IH.
    rewrite !count_lt_app, count_lt_escapeHtml, count_lt_renderMark.
    simpl List.length. lia.
Qed.

Lemma sortedMatches_length (ms : list Match.t) :
  List.length (sortedMatches ms) = List.length ms.
Proof. apply Permutation_length, sortedMatches_perm. Qed.

Lemma map_snd_entries (A : Type) (l : list A) :
  forall i : nat,
    map snd (combine l (seq i (List.length l))) = seq i (List.length l).
Proof.
  induction l as [|x l IH]; intros i; simpl; [reflexivity|now rewrite IH].
Qed.

Lemma sorted_perm_unique (l l' : list Match.t) :
  StronglySorted offset_le l ->
  StronglySorted offset_le l' ->
  Permutation l l' ->
  NoDup (map Match.offset l) ->
  l = l'.
Proof.
  intros Hl. revert l'.
  induction Hl as [|x l Hl IH Hx]; intros l' Hl' Hp Hnd.
  - now apply Permutation_nil in Hp.
  - destruct l' as [|y l'].
    { symmetry in Hp. now apply Permutation_nil in Hp. }
    inversion Hl' as [|? ? Hl1 Hy]; subst.
    inversion Hnd as [|? ? Hnotin Hnd']; subst.
    assert (Hxy : x = y).
    { assert (Hyin : In y (x :: l))
        by (apply (Permutation_in _ (Permutation_sym Hp)); now left).
      destruct Hyin as [E|Hyin]; [exact E|].
      assert (Hxin : In x (y :: l'))
        by (apply (Permutation_in _ Hp); now left).
      destruct Hxin as [E|Hxin]; [now symmetry|].
      rewrite Forall_forall in Hx, Hy.
      pose proof (Hx _ Hyin) as H1. pose proof (Hy _ Hxin) as H2.
      unfold offset_le in H1, H2.
      exfalso. apply Hnotin.
      replace (Match.offset x) with (Match.offset y) by lia.
      now apply in_map. }
    subst y. f_equal. apply IH; [exact Hl1| |exact Hnd'].
    now apply Permutation_cons_inv in Hp.
Qed.

Lemma slice_from_zero (text : jsstring) : slice_from text 0 = text.
Proof.
  rewrite slice_from_cut by (pose proof (len_nonneg text); lia).
  apply cut_all.
Qed.

(** X9: With no issue the renderer writes what [clearHighlights] writes, and
    the line-break marker after it when the buffer ends with a newline:
    only then does the overlay of a clean check differ from the overlay
    of an edit. *)
Theorem applyHighlights_no_issue (st : State) :
  currentMatches st = [] ->
  highlights_innerHTML (applyHighlights st) =
  highlights_innerHTML (clearHighlights st)
    ++ (if endsWith_nl (editor_value st) then lit "<br>" else []).
Proof.
  intros H. unfold applyHighlights, clearHighlights. simpl. rewrite H.
  unfold highlightedText. simpl. rewrite slice_from_zero.
  destruct (endsWith_nl (editor_value st)); [reflexivity|].
  now rewrite app_nil_r.
Qed.

Lemma applyHighlights_no_issue_witness :
  currentMatches (page (lit "ok" ++ [nl]) []) = []
  /\ highlights_innerHTML (applyHighlights (page (lit "ok" ++ [nl]) []))
     = lit "ok" ++ [nl] ++ lit "<br>".
Proof.
  split; [reflexivity|].
  exact (@applyHighlights_no_issue (page (lit "ok" ++ [nl]) []) eq_refl).
Defined.

(** X10: Whatever the buffer and the Issue Set are (in range or not,
    overlapping or not), the only [<] characters of the overlay are those
    of the renderer's own tags: two for each issue, and one for the
    line-break marker. *)
Theorem highlightedText_tags (text : jsstring) (ms : list Match.t) :
  count_lt (highlightedText text ms) =
  (2 * List.length ms + (if endsWith_nl text then 1 else 0))%nat.
Proof.
  unfold highlightedText, forEach.
  match goal with
  | |- context [forEach_from ?f ?i ?l ?a] =>
      pose proof (count_lt_run text (sortedMatches ms) 0 [] 0%Z
                  : count_lt (fst (forEach_from f i l a)) = _) as H;
      destruct (forEach_from f i l a) as [h last]
  end.
  simpl in H. rewrite sortedMatches_length in H.
  destruct (endsWith_nl text);
    rewrite ?count_lt_app, count_lt_escapeHtml, H;
    [change (count_lt (lit "<br>")) with 1%nat|]; lia.
Qed.


(** X12: When no two issues share an offset, the overlay does not depend on
    the order in which the service lists the issues. *)
Theorem highlightedText_order_independent (text : jsstring)
  (ms ms' : list Match.t) :
  Permutation ms ms' ->
  NoDup (map Match.offset ms) ->
  highlightedText text ms = highlightedText text ms'.
Proof.
  intros Hp Hnd.
  assert (E : sortedMatches ms = sortedMatches ms').
  { apply sorted_perm_unique; try apply sortedMatches_sorted.
    - rewrite sortedMatches_perm, Hp. symmetry. apply sortedMatches_perm.
    - eapply Permutation_NoDup; [|exact Hnd].
      apply Permutation_map. symmetry. apply sortedMatches_perm. }
  unfold highlightedText. now rewrite E.
Qed.

Lemma highlightedText_order_independent_witness :
  Permutation [wrld_match; helo_match] [helo_match; wrld_match]
  /\ NoDup (map Match.offset [wrld_match; helo_match])
  /\ highlightedText (lit "helo wrld") [wrld_match; helo_match]
     = highlightedText (lit "helo wrld") [helo_match; wrld_match].
Proof.
  assert (Hp : Permutation [wrld_match; helo_match] [helo_match; wrld_match])
    by apply perm_swap.
  assert (Hn : NoDup (map Match.offset [wrld_match; helo_match])).
  { simpl. constructor; [|constructor; [|constructor]]; simpl.
    - intros [H|[]]. discriminate H.
    - intros []. }
  split; [exact Hp|]. split; [exact Hn|].
  exact (@highlightedText_order_independent (lit "helo wrld") _ _ Hp Hn).
Defined.

(** ** Further properties of the suggestion panel renderer *)

Lemma filter_length_zero (A : Type) (p : A -> bool) (l : list A) :
  List.length (filter p l) = 0%nat <-> Forall (fun x => p x = false) l.
Proof.
  induction l as [|x l IH]; simpl.
  - split; [constructor|reflexivity].
  - destruct (p x) eqn:E; simpl.
    + split; [discriminate|]. intros H. inversion H; congruence.
    + rewrite IH. split; [now constructor|]. intros H. now inversion H.
Qed.

Lemma fold_left_append (A : Type) (g : A -> jsstring) (l : list A) :
  forall acc : jsstring,
    fold_left (fun a p => a ++ g p) l acc = acc ++ List.concat (map g l).
Proof.
  induction l as [|x l IH]; intros acc; simpl.
  - now rewrite app_nil_r.
  - rewrite IH. now rewrite <- app_assoc.
Qed.

Lemma firstn_mid_skipn (A : Type) (a b : nat) (s : list A) :
  (a <= b)%nat ->
  firstn a s ++ firstn (b - a) (skipn a s) ++ skipn b s = s.
Proof.
  intros H.
  rewrite <- (firstn_skipn a s) at 4. f_equal.
  rewrite <- (firstn_skipn (b - a) (skipn a s)) at 2. f_equal.
  rewrite skipn_skipn. f_equal. lia.
Qed.

Lemma substring_mid (s : jsstring) (a b : Z) :
  (0 <= a <= b)%Z ->
  substring s a b = firstn (Z.to_nat b - Z.to_nat a) (skipn (Z.to_nat a) s).
Proof.
  intros H. pose proof (len_nonneg s) as Hn.
  unfold substring, clamp, cut.
  replace (Z.min (Z.min (Z.max a 0) (len s)) (Z.min (Z.max b 0) (len s)))
    with (Z.min a (len s)) by lia.
  replace (Z.max (Z.min (Z.max a 0) (len s)) (Z.min (Z.max b 0) (len s)))
    with (Z.min b (len s)) by lia.
  unfold len in *.
  destruct (Z.le_gt_cases a (Z.of_nat (List.length s))) as [Ha|Ha].
  - rewrite (Z.min_l a) by lia.
    destruct (Z.le_gt_cases b (Z.of_nat (List.length s))) as [Hb|Hb].
    + rewrite Z.min_l by lia. f_equal. lia.
    + rewrite Z.min_r by lia.
      rewrite !firstn_all2; try reflexivity; rewrite length_skipn; lia.
  - rewrite !Z.min_r by lia. rewrite !skipn_all2 by lia.
    now rewrite !firstn_nil.
Qed.

Lemma substring_partition (s : jsstring) (a l : Z) :
  (0 <= a)%Z -> (0 <= l)%Z ->
  substring s 0 a ++ substring s a (a + l) ++ substring_from s (a + l) = s.
Proof.
  intros Ha Hl.
  rewrite substring_prefix, substring_suffix, substring_mid by lia.
  apply firstn_mid_skipn. lia.
Qed.

Lemma firstn_skipn_within (A : Type) (p X Y : list A) (a j : nat) :
  (a + j <= List.length p)%nat ->
  firstn j (skipn a (p ++ X)) = firstn j (skipn a (p ++ Y)).
Proof.
  intros H. rewrite !skipn_app, !firstn_app, length_skipn.
  replace (j - (List.length p - a))%nat with 0%nat by lia.
  now rewrite !firstn_O.
Qed.

Lemma app_assoc_six (A : Type) (a b c d e f g h : list A) :
  a ++ b ++ c ++ d ++ e ++ f ++ g ++ h =
  (a ++ b ++ c ++ d ++ e ++ f) ++ g ++ h.
Proof. now rewrite <- !app_assoc. Qed.

(** X13: The badge is hidden exactly when the Issue Set is empty (its text and
    colour are then left as they were); otherwise it shows the number of
    issues, and has the warning colour exactly when no issue is a
    misspelling. *)
Theorem renderResults_badge (st : State) :
  (badge_hidden (renderResults st) = true <-> currentMatches st = [])
  /\ (currentMatches st = [] ->
      suggestionsList_innerHTML (renderResults st) = empty_state_html
      /\ badge_textContent (renderResults st) = badge_textContent st
      /\ badge_warning (renderResults st) = badge_warning st)
  /\ (currentMatches st <> [] ->
      badge_textContent (renderResults st)
      = dec (List.length (currentMatches st))
      /\ (badge_warning (renderResults st) = true <->
          Forall (fun m => is_misspelling m = false) (currentMatches st))).
Proof.
  unfold renderResults. destruct (currentMatches st) as [|m ms] eqn:E.
  - simpl. split; [split; reflexivity|]. split.
    + intros _. repeat split.
    + intros Hne. now destruct Hne.
  - cbn [badge_hidden set_suggestions set_badge badge_textContent
         badge_warning suggestionsList_innerHTML].
    split; [split; discriminate|]. split; [discriminate|].
    intros _. split; [reflexivity|].
    rewrite Nat.eqb_eq. apply filter_length_zero.
Qed.

(** X14: For an Issue Set that is not empty the panel is the cards of the
    issues, one for each issue, in the order of the Issue Set, each with
    the position of its issue in that order. *)
Theorem renderResults_cards (st : State) :
  currentMatches st <> [] ->
  suggestionsList_innerHTML (renderResults st) =
  List.concat (map (fun p => renderCard (fst p) (snd p))
                 (card_entries (currentMatches st)))
  /\ List.length (card_entries (currentMatches st))
     = List.length (currentMatches st).
Proof.
  intros Hne. split.
  - unfold renderResults. destruct (currentMatches st) as [|m ms] eqn:E;
      [now destruct Hne|].
    cbn [suggestionsList_innerHTML set_suggestions].
    rewrite forEach_entries.
    rewrite (fold_left_append (fun p => renderCard (fst p) (snd p))).
    reflexivity.
  - rewrite <- (card_entries_fst (currentMatches st)) at 2.
    now rewrite length_map.
Qed.

Lemma renderResults_cards_witness :
  currentMatches (page (lit "helo wrld") [wrld_match; helo_match]) <> []
  /\ suggestionsList_innerHTML
       (renderResults (page (lit "helo wrld") [wrld_match; helo_match]))
     = List.concat (map (fun p => renderCard (fst p) (snd p))
                      (card_entries [wrld_match; helo_match])).
Proof.
  assert (H : currentMatches (page (lit "helo wrld") [wrld_match; helo_match])
              <> []) by discriminate.
  split; [exact H|].
  exact (proj1 (@renderResults_cards _ H)).
Defined.

(** X15: The card shows the three slices of the escaped context in its
    context line, and for a context position that is not negative the
    three slices together are the whole escaped context: nothing of it is
    lost or shown twice. *)
Theorem renderCard_context (m : Match.t) (index : nat) :
  (0 <= Context.offset (Match.context m))%Z ->
  (0 <= Context.length (Match.context m))%Z ->
  (exists pre post : jsstring,
     renderCard m index =
     pre ++ line 24 (beforeCtx m
                     ++ lit "<span class=" ++ quoted (lit "context-err")
                     ++ lit ">" ++ errCtx m ++ lit "</span>" ++ afterCtx m)
       ++ post)
  /\ beforeCtx m ++ errCtx m ++ afterCtx m
     = escapeHtml (Context.text (Match.context m)).
Proof.
  intros Ho Hl. split.
  - unfold renderCard. cbv zeta. eexists. eexists. apply app_assoc_six.
  - unfold beforeCtx, errCtx, afterCtx. now apply substring_partition.
Qed.

Lemma renderCard_context_witness :
  (0 <= Context.offset (Match.context dog_match))%Z
  /\ (0 <= Context.length (Match.context dog_match))%Z
  /\ beforeCtx dog_match ++ errCtx dog_match ++ afterCtx dog_match
     = escapeHtml (Context.text (Match.context dog_match)).
Proof.
  assert (H1 : (0 <= Context.offset (Match.context dog_match))%Z)
    by (simpl; lia).
  assert (H2 : (0 <= Context.length (Match.context dog_match))%Z)
    by (simpl; lia).
  split; [exact H1|]. split; [exact H2|].
  exact (proj2 (@renderCard_context dog_match 0 H1 H2)).
Defined.

(** X16: The slices are cut from the escaped context at the positions the
    service gave for the raw context.  When the raw context holds none of
    the five escaped characters up to the end of the error, the error
    slice is the error text of the raw context. *)
Theorem errCtx_aligned (m : Match.t) :
  let c := Match.context m in
  (0 <= Context.offset c)%Z ->
  (0 <= Context.length c)%Z ->
  forallb plain_char
    (firstn (Z.to_nat (Context.offset c + Context.length c))
       (Context.text c)) = true ->
  errCtx m =
  substring (Context.text c) (Context.offset c)
    (Context.offset c + Context.length c)
  /\ beforeCtx m = substring (Context.text c) 0 (Context.offset c).
Proof.
  intros c Ho Hl Hp. unfold errCtx, beforeCtx. fold c.
  set (t := Context.text c) in *.
  set (k := Z.to_nat (Context.offset c + Context.length c)) in *.
  assert (E : escapeHtml t = firstn k t ++ escapeHtml (skipn k t)).
  { rewrite <- (firstn_skipn k t) at 1.
    now rewrite escapeHtml_app, (escapeHtml_plain _ Hp). }
  rewrite !substring_prefix, !substring_mid by lia.
  destruct (Nat.le_gt_cases k (List.length t)) as [Hk|Hk].
  - assert (Hlen : List.length (firstn k t) = k)
      by (rewrite length_firstn; lia).
    assert (G : forall a j : nat, (a + j <= k)%nat ->
                firstn j (skipn a (escapeHtml t)) = firstn j (skipn a t)).
    { intros a j Haj. rewrite E.
      transitivity (firstn j (skipn a (firstn k t ++ skipn k t))).
      - apply firstn_skipn_within. lia.
      - now rewrite firstn_skipn. }
    split.
    + apply G. unfold k. lia.
    + apply (G 0%nat). unfold k. lia.
  - rewrite firstn_all2 in Hp by lia.
    rewrite (escapeHtml_plain _ Hp). split; reflexivity.
Qed.

Lemma errCtx_aligned_witness :
  errCtx dog_match = lit "has" /\ beforeCtx dog_match = lit "I ".
Proof.
  refine (@errCtx_aligned dog_match _ _ _); [simpl; lia|simpl; lia|].
  reflexivity.
Defined.

(** With an ampersand before the error the slices are out of place: the
    card marks a letter of the entity. *)
Example errCtx_misaligned :
  errCtx (Match.mk 4 1 (lit "grammar") [] (Context.mk (lit "a & b") 4 1) [])
  = lit "m".
Proof. reflexivity. Qed.

(** X17: A card shows the first five replacements: what the service lists
    after them changes nothing in the card. *)
Theorem renderCard_first_five (m : Match.t) (index : nat) :
  renderCard (with_replacements (firstn 5 (Match.replacements m)) m) index
  = renderCard m index.
Proof.
  unfold renderCard, with_replacements, is_misspelling.
  cbn [Match.replacements Match.context Match.message Match.issueType].
  now rewrite firstn_firstn.
Qed.

(** ** Further properties of the check cycle *)

Lemma checkText_request_editor (st : State) :
  editor_value (fst (checkText_request st)) = editor_value st.
Proof.
  unfold checkText_request.
  now destruct (str_eqb (trim (editor_value st)) []).
Qed.

(** X18: While a request is out the controls are busy, and when it settles,
    however it settles, they are idle again. *)
Theorem controls_busy_then_idle (o : Outcome) (st : State) :
  (trim (editor_value st) <> [] ->
   loader_hidden (fst (checkText_request st)) = false
   /\ checkBtn_disabled (fst (checkText_request st)) = true
   /\ checkBtn_opacity (fst (checkText_request st)) = lit "0.7")
  /\ controls_idle (fst (checkText_settle o st)).
Proof.
  split.
  - intros Hne. unfold checkText_request.
    destruct (str_eqb (trim (editor_value st)) []) eqn:E;
      [apply str_eqb_nil in E; contradiction|].
    repeat split.
  - destruct o; repeat split.
Qed.

(** X19: A response with matches replaces the Issue Set and draws both views
    from it and from the buffer as it is when the response arrives, not
    as it was when the request left; it shows no notification. *)
Theorem checkText_success (ms : list Match.t) (st : State) :
  let st' := fst (checkText_settle (Matches ms) st) in
  currentMatches st' = ms
  /\ editor_value st' = editor_value st
  /\ highlights_innerHTML st' = highlightedText (editor_value st) ms
  /\ suggestionsList_innerHTML st'
     = suggestionsList_innerHTML (renderResults (set_currentMatches ms st))
  /\ snd (checkText_settle (Matches ms) st) = []
  /\ forall typed : jsstring,
       highlights_innerHTML
         (fst (checkText_settle (Matches ms) (user_edit typed st)))
       = highlightedText typed ms.
Proof.
  cbv zeta. simpl. destruct ms; repeat split.
Qed.

(** X20: The last response wins: after a response with matches the page is
    what this response alone makes of it, whatever settled before it,
    except that an empty response leaves the hidden badge with the text
    and the colour of the response before. *)
Theorem last_response_wins (o : Outcome) (ms : list Match.t) (st : State) :
  let after_both :=
    fst (checkText_settle (Matches ms) (fst (checkText_settle o st))) in
  let after_last := fst (checkText_settle (Matches ms) st) in
  set_badge (badge_textContent after_last) (badge_hidden after_last)
    (badge_warning after_last) after_both = after_last
  /\ (ms <> [] -> after_both = after_last)
  /\ (ms = [] ->
      badge_textContent after_both
      = badge_textContent (fst (checkText_settle o st))
      /\ badge_warning after_both
         = badge_warning (fst (checkText_settle o st))).
Proof.
  cbv zeta. destruct ms as [|m ms].
  - split; [|split].
    + destruct o as [| | |ms1]; try reflexivity. now destruct ms1.
    + intros H. now destruct H.
    + intros _. destruct o as [| | |[|m1 ms1]]; split; reflexivity.
  - split; [|split].
    + destruct o as [| | |ms1]; try reflexivity. now destruct ms1.
    + intros _. destruct o as [| | |ms1]; try reflexivity. now destruct ms1.
    + discriminate.
Qed.

(** ** Further properties of the replacement applier *)

(** X21: The call raises exactly when its index is outside the Issue Set, and
    then nothing has been written; on a page that has no issue every call
    raises. *)
Theorem applyReplacement_raises_iff (i : Z) (r : jsstring) (st : State) :
  (applyReplacement i r st = None <->
   ~ (0 <= i < Z.of_nat (List.length (currentMatches st)))%Z)
  /\ (currentMatches st = [] -> applyReplacement i r st = None).
Proof.
  split.
  - split.
    + intros H Hin. destruct (array_get_Some (currentMatches st) Hin) as [m Hm].
      unfold applyReplacement in H. rewrite Hm in H. discriminate H.
    + intros H. unfold applyReplacement. now rewrite array_get_None.
  - intros E. unfold applyReplacement. rewrite array_get_None; [reflexivity|].
    rewrite E. simpl. lia.
Qed.

Section Replacement.

Local Open Scope Z_scope.

Lemma splice_parts (B r : jsstring) (a b : nat) :
  (a <= b)%nat -> (b <= List.length B)%nat ->
  let B' := firstn a B ++ r ++ skipn b B in
  List.length B' = (List.length B - (b - a) + List.length r)%nat
  /\ firstn a B' = firstn a B
  /\ firstn (List.length r) (skipn a B') = r
  /\ skipn (a + List.length r) B' = skipn b B.
Proof.
  intros Hab Hb B'. subst B'.
  assert (Ha : List.length (firstn a B) = a) by (rewrite length_firstn; lia).
  split; [|split; [|split]].
  - rewrite !length_app, Ha, length_skipn. lia.
  - rewrite firstn_app, Ha, Nat.sub_diag, firstn_O, app_nil_r.
    rewrite firstn_firstn. f_equal. lia.
  - rewrite skipn_app, Ha, Nat.sub_diag. simpl skipn at 2.
    rewrite skipn_all2 by lia. simpl.
    rewrite firstn_app, Nat.sub_diag, firstn_O, app_nil_r. apply firstn_all.
  - rewrite skipn_app, Ha. rewrite skipn_all2 by (rewrite Ha; lia). simpl.
    replace (a + List.length r - a)%nat with (List.length r) by lia.
    rewrite skipn_app, Nat.sub_diag. simpl skipn at 2.
    now rewrite skipn_all.
Qed.

(** X22: For an issue that lies in the buffer, the new buffer is longer by the
    length of the replacement less the length of the issue; it holds the
    replacement at the offset of the issue, the old text before it and
    the old text from the end of the issue after it. *)
Theorem applyReplacement_geometry (i : Z) (r : jsstring) (st : State)
  (m : Match.t) :
  array_get (currentMatches st) i = Some m ->
  within_range (editor_value st) m ->
  exists (st' : State) (eff : list Effect),
    applyReplacement i r st = Some (st', eff)
    /\ len (editor_value st')
       = len (editor_value st) - Match.length m + len r
    /\ slice (editor_value st') 0 (Match.offset m)
       = slice (editor_value st) 0 (Match.offset m)
    /\ slice (editor_value st') (Match.offset m) (Match.offset m + len r) = r
    /\ slice_from (editor_value st') (Match.offset m + len r)
       = slice_from (editor_value st) (Match.offset m + Match.length m).
Proof.
  intros Hget (Ho & Hl & Hend).
  unfold applyReplacement. rewrite Hget.
  set (B := editor_value st) in *.
  set (newText := substring B 0 (Match.offset m) ++ r
                    ++ substring_from B (Match.offset m + Match.length m)).
  destruct (checkText_request (updateStats (set_editor_value newText st)))
    as [st' eff] eqn:E.
  exists st', eff. split; [reflexivity|].
  assert (Ev : editor_value st' = newText).
  { change st' with (fst (st', eff)). rewrite <- E.
    now rewrite checkText_request_editor. }
  rewrite Ev. clear E Ev.
  unfold newText. rewrite substring_prefix, substring_suffix.
  set (a := Z.to_nat (Match.offset m)).
  set (b := Z.to_nat (Match.offset m + Match.length m)).
  unfold len in Hend.
  destruct (@splice_parts B r a b) as (H1 & H2 & H3 & H4);
    [unfold a, b; lia|unfold b; lia|].
  set (B' := firstn a B ++ r ++ skipn b B) in *.
  assert (HlenB' : len B' = len B - Match.length m + len r).
  { unfold len. rewrite H1. unfold a, b. lia. }
  split; [exact HlenB'|].
  unfold len in HlenB'.
  split; [|split].
  - rewrite !slice_cut by (unfold len; lia). unfold cut.
    rewrite Z.sub_0_r. simpl skipn. fold a. exact H2.
  - rewrite slice_cut by (unfold len in *; lia). unfold cut.
    fold a. replace (Z.to_nat (Match.offset m + len r - Match.offset m))
      with (List.length r) by (unfold len; lia).
    exact H3.
  - rewrite !slice_from_cut by (unfold len in *; lia). unfold cut.
    replace (Z.to_nat (Match.offset m + len r))
      with (a + List.length r)%nat by (unfold a, len; lia).
    fold b. rewrite H4.
    rewrite !firstn_all2; try reflexivity.
    + rewrite length_skipn. unfold len, b. lia.
    + rewrite length_skipn. unfold len, b. lia.
Qed.

Lemma applyReplacement_geometry_witness :
  exists (st' : State) (eff : list Effect),
    applyReplacement 0 (lit "have") (page (lit "I has a dog") [dog_match])
    = Some (st', eff)
    /\ len (editor_value st') = 12.
Proof.
  destruct (@applyReplacement_geometry 0 (lit "have")
              (page (lit "I has a dog") [dog_match]) dog_match)
    as (st' & eff & H1 & H2 & _).
  - reflexivity.
  - unfold within_range, len; simpl; lia.
  - exists st', eff. split; [exact H1|exact H2].
Defined.

(** X23: Replacing an issue that lies in the buffer by the text it covers
    leaves the buffer as it is. *)
Theorem applyReplacement_same_text (i : Z) (st : State) (m : Match.t) :
  array_get (currentMatches st) i = Some m ->
  within_range (editor_value st) m ->
  exists (st' : State) (eff : list Effect),
    applyReplacement i
      (slice (editor_value st) (Match.offset m)
         (Match.offset m + Match.length m)) st = Some (st', eff)
    /\ editor_value st' = editor_value st.
Proof.
  intros Hget (Ho & Hl & Hend).
  unfold applyReplacement. rewrite Hget.
  set (B := editor_value st) in *.
  match goal with
  | |- context [checkText_request ?s] =>
      destruct (checkText_request s) as [st' eff] eqn:E
  end.
  exists st', eff. split; [reflexivity|].
  change st' with (fst (st', eff)). rewrite <- E.
  rewrite checkText_request_editor. simpl.
  rewrite substring_prefix, substring_suffix.
  rewrite slice_cut by lia. unfold cut.
  replace (Z.to_nat (Match.offset m + Match.length m - Match.offset m))
    with (Z.to_nat (Match.offset m + Match.length m)
          - Z.to_nat (Match.offset m))%nat by lia.
  apply firstn_mid_skipn. lia.
Qed.

Lemma applyReplacement_same_text_witness :
  exists (st' : State) (eff : list Effect),
    applyReplacement 0 (lit "has") (page (lit "I has a dog") [dog_match])
    = Some (st', eff)
    /\ editor_value st' = lit "I has a dog".
Proof.
  destruct (@applyReplacement_same_text 0
              (page (lit "I has a dog") [dog_match]) dog_match)
    as (st' & eff & H1 & H2).
  - reflexivity.
  - unfold within_range, len; simpl; lia.
  - exists st', eff. split; [exact H1|exact H2].
Defined.

End Replacement.

(** ** The page under any sequence of events *)

Lemma handle_frame (e : Event) (st : State) :
  is_success e = false ->
  currentMatches (handle e st) = currentMatches st
  /\ suggestionsList_innerHTML (handle e st) = suggestionsList_innerHTML st
  /\ (highlights_innerHTML (handle e st) = highlights_innerHTML st
      \/ exists typed, e = UserEdit typed
                       /\ highlights_innerHTML (handle e st) = escapeHtml typed).
Proof.
  intros He. destruct e as [typed| |o|i r]; simpl.
  - split; [reflexivity|]. split; [reflexivity|]. right. now exists typed.
  - unfold checkText_request.
    destruct (str_eqb (trim (editor_value st)) []); simpl; auto.
  - destruct o; try discriminate He; simpl; auto.
  - unfold applyReplacement.
    destruct (array_get (currentMatches st) i) as [m|]; [|auto].
    unfold checkText_request.
    match goal with
    | |- context [str_eqb ?a ?b] => destruct (str_eqb a b)
    end; simpl; auto.
Qed.

Lemma renderResults_panel_only (st st' : State) :
  currentMatches st = currentMatches st' ->
  suggestionsList_innerHTML (renderResults st)
  = suggestionsList_innerHTML (renderResults st').
Proof.
  intros H. unfold renderResults. rewrite H.
  now destruct (currentMatches st').
Qed.

Lemma handle_overlay_ok (e : Event) (st : State) :
  overlay_ok st -> overlay_ok (handle e st).
Proof.
  intros Hok. destruct (is_success e) eqn:He.
  - destruct e as [typed| |[| | |ms]|i r]; try discriminate He.
    right. exists (editor_value st). simpl. now destruct ms.
  - destruct (handle_frame e st He) as (Hm & _ & [Hh|(typed & _ & Hh)]).
    + unfold overlay_ok. rewrite Hh, Hm. exact Hok.
    + left. now exists typed.
Qed.

Lemma handle_stats_ok (e : Event) (st : State) :
  stats_ok st -> stats_ok (handle e st).
Proof.
  intros (Hc & Hw). destruct e as [typed| |o|i r]; simpl.
  - split; reflexivity.
  - unfold checkText_request.
    destruct (str_eqb (trim (editor_value st)) []); simpl; now split.
  - destruct o as [| | |ms]; simpl; try now split.
    destruct ms; simpl; now split.
  - unfold applyReplacement.
    destruct (array_get (currentMatches st) i) as [m|]; [|now split].
    unfold checkText_request.
    match goal with
    | |- context [str_eqb ?a ?b] => destruct (str_eqb a b)
    end; simpl; split; reflexivity.
Qed.

Lemma handle_panel_ok (e : Event) (st : State) :
  panel_ok st -> panel_ok (handle e st).
Proof.
  unfold panel_ok. intros Hok. destruct (is_success e) eqn:He.
  - destruct e as [typed| |[| | |ms]|i r]; try discriminate He.
    simpl. now destruct ms.
  - destruct (handle_frame e st He) as (Hm & Hs & _).
    rewrite Hs, <- Hok. now apply renderResults_panel_only.
Qed.

Lemma overlay_ok_bound (st : State) :
  overlay_ok st ->
  (count_lt (highlights_innerHTML st)
   <= 2 * List.length (currentMatches st) + 1)%nat.
Proof.
  intros [(B & ->)|(B & ->)].
  - rewrite count_lt_escapeHtml. lia.
  - unfold highlightedText, forEach.
    match goal with
    | |- context [forEach_from ?f ?i ?l ?a] =>
        pose proof (count_lt_run B (sortedMatches (currentMatches st)) 0 []
                      0%Z
                    : count_lt (fst (forEach_from f i l a)) = _) as H;
        destruct (forEach_from f i l a) as [h last]
    end.
    simpl in H. rewrite sortedMatches_length in H.
    destruct (endsWith_nl B);
      rewrite ?count_lt_app, count_lt_escapeHtml, H;
      [change (count_lt (lit "<br>")) with 1%nat|]; lia.
Qed.

(** X24: Whatever the user types and clicks and however the requests settle,
    the overlay stays the escaped text of a buffer or the rendering of a
    buffer with the current Issue Set; so it never holds more [<] than
    two for each current issue and one for the line-break marker: no text
    of the user becomes markup. *)
Theorem overlay_invariant (evs : list Event) (st : State) :
  overlay_ok st ->
  overlay_ok (run evs st)
  /\ (count_lt (highlights_innerHTML (run evs st))
      <= 2 * List.length (currentMatches (run evs st)) + 1)%nat.
Proof.
  intros H.
  assert (G : overlay_ok (run evs st)).
  { unfold run. revert st H. induction evs as [|e evs IH]; intros st H;
      [exact H|]. simpl. apply IH. now apply handle_overlay_ok. }
  split; [exact G|now apply overlay_ok_bound].
Qed.

Lemma overlay_invariant_witness :
  overlay_ok
    (run [UserEdit (lit "<b>helo wrld"); ClickCheck;
          Settle (Matches [wrld_match; helo_match]);
          ClickReplacement 1 (lit "<i>"); Settle StatusNotOk]
       (page [] [])).
Proof.
  refine (proj1 (@overlay_invariant _ (page [] []) _)).
  left. exists []. reflexivity.
Defined.

(** X25: Once the counts shown are those of the buffer they stay so under
    every event, and they are so after the first edit. *)
Theorem stats_invariant (evs : list Event) (typed : jsstring) (st : State) :
  (stats_ok st -> stats_ok (run evs st))
  /\ stats_ok (run evs (user_edit typed st)).
Proof.
  assert (G : forall s, stats_ok s -> stats_ok (run evs s)).
  { unfold run. induction evs as [|e evs IH]; intros s H; [exact H|].
    simpl. apply IH. now apply handle_stats_ok. }
  split; [apply G|]. apply G. split; reflexivity.
Qed.

(** X26: Only a response with matches changes the Issue Set and the panel: no
    edit, click, replacement or failed request does. *)
Theorem issue_set_changes_on_success_only (evs : list Event) (st : State) :
  forallb (fun e => negb (is_success e)) evs = true ->
  currentMatches (run evs st) = currentMatches st
  /\ suggestionsList_innerHTML (run evs st) = suggestionsList_innerHTML st.
Proof.
  unfold run. revert st. induction evs as [|e evs IH]; intros st H;
    [split; reflexivity|].
  simpl in H. apply andb_true_iff in H. destruct H as (He & Hevs).
  apply negb_true_iff in He.
  destruct (handle_frame e st He) as (Hm & Hs & _).
  simpl. destruct (IH (handle e st) Hevs) as (IH1 & IH2).
  split; congruence.
Qed.

Lemma issue_set_changes_on_success_only_witness :
  currentMatches
    (run [UserEdit (lit "I has a dogs"); ClickCheck; Settle FetchRejected;
          ClickReplacement 0 (lit "have")]
       (page (lit "I has a dog") [dog_match]))
  = [dog_match].
Proof.
  refine (proj1 (@issue_set_changes_on_success_only _
                   (page (lit "I has a dog") [dog_match]) _)).
  reflexivity.
Defined.

(** X27: Once the panel shows the current Issue Set it does so after every
    event: the cards never describe another Issue Set than the one
    [applyReplacement] reads. *)
Theorem panel_invariant (evs : list Event) (st : State) :
  panel_ok st -> panel_ok (run evs st).
Proof.
  unfold run. revert st. induction evs as [|e evs IH]; intros st H;
    [exact H|].
  simpl. apply IH. now apply handle_panel_ok.
Qed.

Lemma panel_invariant_witness :
  panel_ok
    (run [Settle (Matches [dog_match]); UserEdit (lit "I has a dogs");
          ClickReplacement 0 (lit "have")]
       (fst (checkText_settle (Matches []) (page (lit "I has a dog") [])))).
Proof.
  refine (@panel_invariant _
            (fst (checkText_settle (Matches [])
                    (page (lit "I has a dog") []))) _).
  reflexivity.
Defined.

(** ** From a highlight to a card *)

Lemma nth_error_entries (A : Type) (l : list A) :
  forall (k i : nat) (x : A),
    nth_error l k = Some x ->
    nth_error (combine l (seq i (List.length l))) k = Some (x, (i + k)%nat).
Proof.
  induction l as [|y l IH]; intros k i x Hk.
  - destruct k; discriminate Hk.
  - destruct k as [|k]; simpl in *.
    + injection Hk as ->. now rewrite Nat.add_0_r.
    + rewrite (IH k (S i) x Hk). f_equal. f_equal. lia.
Qed.

Lemma concat_map_nth (A : Type) (g : A -> jsstring) (L : list A) :
  forall (k : nat) (x : A),
    nth_error L k = Some x ->
    exists pre post, List.concat (map g L) = pre ++ g x ++ post.
Proof.
  induction L as [|y L IH]; intros k x Hk.
  - destruct k; discriminate Hk.
  - destruct k as [|k]; simpl in Hk.
    + injection Hk as ->. exists [], (List.concat (map g L)). reflexivity.
    + destruct (IH k x Hk) as (pre & post & E).
      exists (g y ++ pre), post. simpl. rewrite E. now rewrite <- app_assoc.
Qed.

Lemma renderResults_card_at (st : State) (k : nat) (m : Match.t) :
  nth_error (currentMatches st) k = Some m ->
  exists pre post,
    suggestionsList_innerHTML (renderResults st) = pre ++ renderCard m k ++ post.
Proof.
  intros Hk. unfold renderResults.
  destruct (currentMatches st) as [|x l] eqn:E;
    [destruct k; discriminate Hk|].
  cbn [suggestionsList_innerHTML set_suggestions].
  unfold forEach. rewrite forEach_from_fold.
  rewrite (fold_left_append (fun p => renderCard (fst p) (snd p))).
  apply (@concat_map_nth _ (fun p => renderCard (fst p) (snd p)) _ k (m, k)).
  exact (@nth_error_entries _ (x :: l) k 0 m Hk).
Qed.

Lemma app_id_split (A : Type) (x : A) (s a b id q c rest : list A) :
  (x :: s ++ (a ++ b ++ id ++ q ++ c)) ++ rest =
  (x :: s ++ a ++ b) ++ id ++ q ++ (c ++ rest).
Proof. simpl. now rewrite <- !app_assoc. Qed.

Lemma renderCard_id (m : Match.t) (i : nat) :
  exists a b,
    renderCard m i = a ++ lit " id=" ++ quoted (click_target i) ++ b.
Proof.
  unfold renderCard, line. cbv zeta. eexists. eexists. apply app_id_split.
Qed.

(** X11: After a response with [n] matches, for every [i] below [n] the
    overlay holds the mark of the issue that is number [i] in the order
    of offsets, which carries [data-index] [i], and the panel holds the
    card of the issue that is number [i] in the order of the service,
    whose [id] is the one the click listener makes of the index [i]: a
    click on a highlight finds a card of the same check. *)
Theorem highlight_click_finds_card (ms : list Match.t) (st : State)
  (i : nat) :
  (i < List.length ms)%nat ->
  let st' := fst (checkText_settle (Matches ms) st) in
  let text := editor_value st in
  exists m_mark m_card : Match.t,
    nth_error (sortedMatches ms) i = Some m_mark
    /\ nth_error ms i = Some m_card
    /\ (exists pre post,
          highlights_innerHTML st' = pre ++ renderMark text m_mark i ++ post)
    /\ (exists tail,
          renderMark text m_mark i =
          lit "<mark class=" ++ quoted (typeClass m_mark)
            ++ lit " data-index=" ++ quoted (dec i) ++ tail)
    /\ click_target i = lit "card-" ++ dec i
    /\ (exists pre post,
          suggestionsList_innerHTML st' = pre ++ renderCard m_card i ++ post)
    /\ (exists a b,
          renderCard m_card i =
          a ++ lit " id=" ++ quoted (click_target i) ++ b).
Proof.
  intros Hi. cbv zeta.
  destruct (nth_error (sortedMatches ms) i) as [mm|] eqn:Hm;
    [|apply nth_error_None in Hm; rewrite sortedMatches_length in Hm; lia].
  destruct (nth_error ms i) as [mc|] eqn:Hc;
    [|apply nth_error_None in Hc; lia].
  exists mm, mc. split; [reflexivity|]. split; [reflexivity|].
  assert (Eh : highlights_innerHTML (fst (checkText_settle (Matches ms) st))
               = highlightedText (editor_value st) ms)
    by (simpl; now destruct ms).
  assert (Es : suggestionsList_innerHTML
                 (fst (checkText_settle (Matches ms) st))
               = suggestionsList_innerHTML
                   (renderResults (set_currentMatches ms st)))
    by reflexivity.
  split.
  { rewrite Eh, highlightedText_walk.
    exact (@walk_mark (editor_value st) _ i 0 0%Z mm Hm). }
  split.
  { unfold renderMark, mark_open. eexists.
    rewrite <- !app_assoc. reflexivity. }
  split; [reflexivity|].
  split.
  { rewrite Es. now apply renderResults_card_at. }
  apply renderCard_id.
Qed.

Lemma highlight_click_finds_card_witness :
  (0 < List.length [wrld_match; helo_match])%nat
  /\ exists m_mark m_card : Match.t,
       nth_error (sortedMatches [wrld_match; helo_match]) 0 = Some m_mark
       /\ nth_error [wrld_match; helo_match] 0 = Some m_card
       /\ exists pre post,
            highlights_innerHTML
              (fst (checkText_settle (Matches [wrld_match; helo_match])
                      (page (lit "helo wrld") [])))
            = pre ++ renderMark (lit "helo wrld") m_mark 0 ++ post.
Proof.
  assert (H : (0 < List.length [wrld_match; helo_match])%nat)
    by (simpl; lia).
  split; [exact H|].
  destruct (@highlight_click_finds_card [wrld_match; helo_match]
              (page (lit "helo wrld") []) 0 H)
    as (mm & mc & H1 & H2 & H3 & _).
  exists mm, mc. split; [exact H1|]. split; [exact H2|exact H3].
Defined.
